(** * Page monitor: extraction, duplicate check and storage

    A shallow embedding of [main.py]: the regular expression of
    [parse_content] run by a backtracking matcher with Python's priorities,
    the SQL [LIKE] test of [save_content_to_db], the table [page_content] as
    a list of rows, one iteration of the loop of [monitor_page] as a step
    function, and the read handler [get_saved_content].

    Text is a list of characters.  A character is a code point below 256
    (Rocq's [ascii]); the classes [\s], [\w] and "printable" are Python's
    for that range.  Of the database, the model has [LIKE] as SQLite
    runs it: the arguments are read as C strings, and a pattern of more
    than 50000 bytes raises.  SQLite's limit of 10^9 bytes for one value
    is not in the model: a text that long is outside it. *)

From Stdlib Require Import String Ascii List NArith Bool Arith Lia.
From Stdlib Require Import DecimalString.
From Stdlib Require Finite.
Import ListNotations.

Local Open Scope list_scope.

(** A string literal as the text it denotes. *)
Definition txt (s : string) : list ascii := list_ascii_of_string s.

(* ------------------------------------------------------------------ *)
(** ** Characters *)

Module Chr.

Definition code (c : ascii) : N := N_of_ascii c.

Definition nul : ascii := ascii_of_N 0.
Definition newline : ascii := ascii_of_N 10.
Definition dquote : ascii := ascii_of_N 34.
Definition backslash : ascii := ascii_of_N 92.

Definition between (lo hi : N) (c : ascii) : bool :=
  ((lo <=? code c) && (code c <=? hi))%N.

Definition has_code (n : N) (c : ascii) : bool := (code c =? n)%N.

(** [str.isspace] on one character, which is also the class [\s] of a
    [str] pattern: tab to carriage return, the four separators 28..31,
    the space, NEL and the no-break space. *)
Definition is_space (c : ascii) : bool :=
  between 9 13 c || between 28 32 c || has_code 133 c || has_code 160 c.

(** [str.isalnum] on one character. *)
Definition is_alnum (c : ascii) : bool :=
  between 48 57 c || between 65 90 c || between 97 122 c
  || has_code 170 c || between 178 179 c || has_code 181 c || between 185 186 c
  || between 188 190 c || between 192 214 c || between 216 246 c
  || between 248 255 c.

(** The class [\w]: alphanumeric or the underscore. *)
Definition is_word (c : ascii) : bool := is_alnum c || has_code 95 c.

(** [.] without the DOTALL flag: anything but the line feed. *)
Definition is_dot (c : ascii) : bool := negb (has_code 10 c).

(** The set [[^\s]]. *)
Definition is_nonspace (c : ascii) : bool := negb (is_space c).

(** The set [[\w\s]]. *)
Definition is_wordspace (c : ascii) : bool := is_word c || is_space c.

(** [str.isprintable] on one character. *)
Definition is_printable (c : ascii) : bool :=
  negb (between 0 31 c || between 127 160 c || has_code 173 c).

(** ASCII lower-casing, the folding SQLite's [LIKE] applies. *)
Definition lower (c : ascii) : ascii :=
  if between 65 90 c then ascii_of_N (code c + 32) else c.

End Chr.

(* ------------------------------------------------------------------ *)
(** ** The regular expression engine

    The pattern of [parse_content] is a sequence of pieces; a piece is one
    character set, taken once or repeated, and may be a capturing group.
    The matcher is the backtracking one of [re]: a greedy repeat takes the
    longest run first and gives characters back one at a time, a lazy
    repeat takes the shortest run first and extends it one at a time. *)

Module Re.

Definition charset := ascii -> bool.

Inductive node : Type :=
  | Single (f : charset)                  (* one character of the set *)
  | MaxRepeat (min : nat) (f : charset)   (* greedy: f*, f+ *)
  | MinRepeat (min : nat) (f : charset).  (* lazy: f*?, f+? *)

Record piece : Type := { capture : bool; body : node }.

Definition pattern := list piece.

Definition lit (c : ascii) : piece :=
  {| capture := false; body := Single (Ascii.eqb c) |}.

Definition literal (s : string) : pattern := map lit (txt s).

Definition plain (n : node) : piece := {| capture := false; body := n |}.
Definition group (n : node) : piece := {| capture := true; body := n |}.

Section Repeat.
Context {R : Type} (f : charset) (k : list ascii -> option R).

(** What a repeat does once it stops taking characters: hand over to
    the rest of the pattern, if the minimum has been reached. *)
Definition leave (min : nat) (s : list ascii) : option (list ascii * R) :=
  match min with
  | O => option_map (pair []) (k s)
  | S _ => None
  end.

(** One more character in front of the run taken. *)
Definition took (c : ascii) (r : option (list ascii * R))
  : option (list ascii * R) :=
  option_map (fun '(run, x) => (c :: run, x)) r.

(** Greedy: take a character if the set has it and go on; when that
    fails, stop here. *)
Fixpoint max_repeat (min : nat) (s : list ascii)
  : option (list ascii * R) :=
  match s with
  | c :: s' =>
      if f c then
        match took c (max_repeat (pred min) s') with
        | Some r => Some r
        | None => leave min s
        end
      else leave min s
  | [] => leave min s
  end.

(** Lazy: stop here; when that fails, take a character and go on. *)
Fixpoint min_repeat (min : nat) (s : list ascii)
  : option (list ascii * R) :=
  match leave min s with
  | Some r => Some r
  | None =>
      match s with
      | c :: s' => if f c then took c (min_repeat (pred min) s') else None
      | [] => None
      end
  end.
End Repeat.

(** A match from the head of [s]: the text each piece took, in order,
    and what is left of [s]. *)
Definition result : Type := list (list ascii) * list ascii.

Definition seg (run : list ascii) (r : result) : result :=
  (run :: fst r, snd r).

Fixpoint exec (p : pattern) (s : list ascii) : option result :=
  match p with
  | [] => Some ([], s)
  | pc :: p' =>
      match body pc with
      | Single f =>
          match s with
          | c :: s' => if f c then option_map (seg [c]) (exec p' s') else None
          | [] => None
          end
      | MaxRepeat min f =>
          option_map (fun '(run, r) => seg run r)
                     (max_repeat f (exec p') min s)
      | MinRepeat min f =>
          option_map (fun '(run, r) => seg run r)
                     (min_repeat f (exec p') min s)
      end
  end.

(** One found match: the text skipped before it, the text of each piece,
    and the text after it. *)
Record found : Type :=
  { skipped : list ascii; pieces : list (list ascii); after : list ascii }.

Definition skip (c : ascii) (m : found) : found :=
  {| skipped := c :: skipped m; pieces := pieces m; after := after m |}.

(** [pattern.search]: the first start position, left to right, from which
    the pattern matches. *)
Fixpoint search (p : pattern) (s : list ascii) : option found :=
  match exec p s with
  | Some (segs, rest) =>
      Some {| skipped := []; pieces := segs; after := rest |}
  | None =>
      match s with
      | [] => None
      | c :: s' => option_map (skip c) (search p s')
      end
  end.

(** The scan of [pattern.findall]: search, then search again from the end
    of the match.  Each match of a pattern that starts with a literal
    takes at least one character, so [S (length s)] rounds are enough
    (lemma [scan_fuel] below). *)
Fixpoint scan (fuel : nat) (p : pattern) (s : list ascii) : list found :=
  match fuel with
  | O => []
  | S fuel' =>
      match search p s with
      | None => []
      | Some m => m :: scan fuel' p (after m)
      end
  end.

Definition finditer (p : pattern) (s : list ascii) : list found :=
  scan (S (length s)) p s.

(** The groups of a match, in order. *)
Fixpoint groups (p : pattern) (segs : list (list ascii))
  : list (list ascii) :=
  match p, segs with
  | pc :: p', x :: segs' =>
      if capture pc then x :: groups p' segs' else groups p' segs'
  | _, _ => []
  end.

(** [pattern.findall] of a pattern with groups: the tuple of groups of
    every match. *)
Definition findall (p : pattern) (s : list ascii) : list (list (list ascii)) :=
  map (fun m => groups p (pieces m)) (finditer p s).

(** The text a match covers. *)
Definition matched (m : found) : list ascii := concat (pieces m).

(** The text a piece may take. *)
Definition fits (n : node) (run : list ascii) : Prop :=
  match n with
  | Single f => exists c, run = [c] /\ f c = true
  | MaxRepeat min f | MinRepeat min f =>
      Forall (fun c => f c = true) run /\ min <= length run
  end.

(** A pattern that starts with a single character takes at least one. *)
Definition starts_single (p : pattern) : Prop :=
  match p with
  | pc :: _ => match body pc with Single _ => True | _ => False end
  | [] => False
  end.

End Re.

(** [r"TAG ID:\s*([^\s]+).+?----([\w\s]+)"] *)
Definition tag_pattern : Re.pattern :=
  Re.literal "TAG ID:"
  ++ [ Re.plain (Re.MaxRepeat 0 Chr.is_space);
       Re.group (Re.MaxRepeat 1 Chr.is_nonspace);
       Re.plain (Re.MinRepeat 1 Chr.is_dot) ]
  ++ Re.literal "----"
  ++ [ Re.group (Re.MaxRepeat 1 Chr.is_wordspace) ].

(* ------------------------------------------------------------------ *)
(** ** Python values and their text *)

Module Py.

(** [str.lstrip], [str.rstrip] and [str.strip] without argument. *)
Fixpoint lstrip (s : list ascii) : list ascii :=
  match s with
  | c :: s' => if Chr.is_space c then lstrip s' else s
  | [] => []
  end.

Definition rstrip (s : list ascii) : list ascii := rev (lstrip (rev s)).

Definition strip (s : list ascii) : list ascii := rstrip (lstrip s).

(** [enumerate]. *)
Definition enumerate {A : Type} (l : list A) : list (nat * A) :=
  combine (seq 0 (length l)) l.

(** [str] of a non-negative [int]. *)
Definition str_int (n : N) : list ascii :=
  txt (NilEmpty.string_of_uint (N.to_uint n)).

(** [str.join]. *)
Fixpoint join (sep : list ascii) (l : list (list ascii)) : list ascii :=
  match l with
  | [] => []
  | [x] => x
  | x :: l' => x ++ sep ++ join sep l'
  end.

(** A number left-padded with zeros, as [%02d], [%04d] and [%06d] do. *)
Definition zpad (width : nat) (n : N) : list ascii :=
  let s := str_int n in repeat "0"%char (width - length s) ++ s.

(** One lower-case hexadecimal digit. *)
Definition hexdigit (n : N) : ascii :=
  if (n <? 10)%N then ascii_of_N (48 + n) else ascii_of_N (87 + n).

(** The quote [repr] of a [str] puts around it: the double quote when the
    text has a single quote and no double quote, the single quote
    otherwise. *)
Definition repr_quote (s : list ascii) : ascii :=
  if existsb (Ascii.eqb "'") s && negb (existsb (Ascii.eqb Chr.dquote) s)
  then Chr.dquote else "'"%char.

(** [repr] of one character inside the quotes. *)
Definition repr_char (quote c : ascii) : list ascii :=
  if Ascii.eqb c quote || Ascii.eqb c Chr.backslash then [Chr.backslash; c]
  else if Chr.has_code 9 c then [Chr.backslash; "t"%char]
  else if Chr.has_code 10 c then [Chr.backslash; "n"%char]
  else if Chr.has_code 13 c then [Chr.backslash; "r"%char]
  else if Chr.is_printable c then [c]
  else [Chr.backslash; "x"%char;
        hexdigit (Chr.code c / 16); hexdigit (Chr.code c mod 16)].

(** [repr] of a [str]. *)
Definition repr_str (s : list ascii) : list ascii :=
  let q := repr_quote s in
  q :: flat_map (repr_char q) s ++ [q].

(** The characters [repr] may add to a text: the quotes, the backslash
    and what follows it in an escape. *)
Definition repr_extra : list ascii :=
  "'"%char :: Chr.dquote :: Chr.backslash :: txt "ntrx0123456789abcdef".

(** The [tzinfo] objects [pytz] holds for America/Sao_Paulo: local mean
    time, standard time and daylight saving time. *)
Inductive tzinfo : Type := LMT | STD | DST.

(** [repr] of such a [tzinfo]. *)
Definition repr_tzinfo (z : tzinfo) : list ascii :=
  match z with
  | LMT => txt "<DstTzInfo 'America/Sao_Paulo' LMT-1 day, 20:54:00 STD>"
  | STD => txt "<DstTzInfo 'America/Sao_Paulo' -03-1 day, 21:00:00 STD>"
  | DST => txt "<DstTzInfo 'America/Sao_Paulo' -02-1 day, 22:00:00 DST>"
  end.

(** The offset [isoformat] prints after an aware time. *)
Definition iso_offset (z : tzinfo) : list ascii :=
  match z with
  | LMT => txt "-03:06"
  | STD => txt "-03:00"
  | DST => txt "-02:00"
  end.

Record datetime : Type :=
  { year : N; month : N; day : N;
    hour : N; minute : N; second : N; microsecond : N;
    tz : option tzinfo }.

(** The time without its zone. *)
Definition naive (t : datetime) : datetime :=
  {| year := year t; month := month t; day := day t;
     hour := hour t; minute := minute t; second := second t;
     microsecond := microsecond t; tz := None |}.

(** [repr] of a [datetime]: the fields, the seconds and microseconds left
    out when they are zero, then the zone. *)
Definition repr_datetime (t : datetime) : list ascii :=
  let base := [year t; month t; day t; hour t; minute t] in
  let fields :=
    if (microsecond t =? 0)%N then
      if (second t =? 0)%N then base else base ++ [second t]
    else base ++ [second t; microsecond t] in
  txt "datetime.datetime(" ++ join (txt ", ") (map str_int fields)
  ++ match tz t with
     | Some z => txt ", tzinfo=" ++ repr_tzinfo z
     | None => []
     end
  ++ txt ")".

(** [datetime.isoformat]. *)
Definition isoformat (t : datetime) : list ascii :=
  zpad 4 (year t) ++ txt "-" ++ zpad 2 (month t) ++ txt "-" ++ zpad 2 (day t)
  ++ txt "T" ++ zpad 2 (hour t) ++ txt ":" ++ zpad 2 (minute t)
  ++ txt ":" ++ zpad 2 (second t)
  ++ (if (microsecond t =? 0)%N then [] else txt "." ++ zpad 6 (microsecond t))
  ++ match tz t with Some z => iso_offset z | None => [] end.

End Py.

(* ------------------------------------------------------------------ *)
(** ** Substrings *)

Module Sub.

Fixpoint prefix (p s : list ascii) : bool :=
  match p, s with
  | [], _ => true
  | a :: p', b :: s' => Ascii.eqb a b && prefix p' s'
  | _ :: _, [] => false
  end.

(** [p in s] of Python: [p] occurs in [s] as a run of characters. *)
Fixpoint contains (p s : list ascii) : bool :=
  prefix p s || match s with [] => false | _ :: s' => contains p s' end.

End Sub.

(** An automaton that reads a text and fails at the first [d], colon,
    space in a row, the [d] in either case: the end of [TAG ID: ] as
    [LIKE] compares it. *)
Module Dcs.

Inductive seen : Type := Nothing | SeenD | SeenDColon.

Definition is_d (c : ascii) : bool := Ascii.eqb (Chr.lower c) "d".

Definition step (q : seen) (c : ascii) : option seen :=
  if is_d c then Some SeenD
  else if Ascii.eqb c ":" then
    Some match q with SeenD => SeenDColon | _ => Nothing end
  else if Ascii.eqb c " " then
    match q with SeenDColon => None | _ => Some Nothing end
  else Some Nothing.

Fixpoint run (q : seen) (s : list ascii) : option seen :=
  match s with
  | [] => Some q
  | c :: s' =>
      match step q c with
      | Some q' => run q' s'
      | None => None
      end
  end.

End Dcs.

(* ------------------------------------------------------------------ *)
(** ** The extractor *)

(** The dict [parse_content] builds for one match. *)
Record entry : Type :=
  { id : N; tag_id : list ascii; message : list ascii;
    timestamp : Py.datetime }.

(** [str(entry)]: the dict printed with the [repr] of its keys and
    values, in insertion order. *)
Definition str_entry (e : entry) : list ascii :=
  txt "{'id': " ++ Py.str_int (id e)
  ++ txt ", 'tag_id': " ++ Py.repr_str (tag_id e)
  ++ txt ", 'message': " ++ Py.repr_str (message e)
  ++ txt ", 'timestamp': " ++ Py.repr_datetime (timestamp e)
  ++ txt "}".

(** The clock: [now k] is what the [k]-th call of [datetime.now] inside
    one call of [parse_content] (or one cycle of the monitor) returns. *)
Definition clock := nat -> Py.datetime.

(** The comprehension body of [parse_content]: the dict of the match
    number [idx] with groups [m]. *)
Definition make_entry (now : clock) (im : nat * list (list ascii)) : entry :=
  let '(idx, m) := im in
  {| id := N.of_nat idx + 1;
     tag_id := nth 0 m [];
     message := Py.strip (nth 1 m []);
     timestamp := now idx |}.

Definition parse_content (now : clock) (content : list ascii) : list entry :=
  let matches := Re.findall tag_pattern content in
  match matches with
  | [] => []
  | _ => map (make_entry now) (Py.enumerate matches)
  end.

(** A span of text in the shape of the pattern: the marker, white space,
    the token, the gap, four hyphens and the message run. *)
Record span : Type :=
  { ws : list ascii; tag : list ascii; gap : list ascii; msg : list ascii }.

Definition units (s : string) : list (list ascii) :=
  map (fun c => [c]) (txt s).

Definition span_pieces (sp : span) : list (list ascii) :=
  units "TAG ID:" ++ [ws sp; tag sp; gap sp] ++ units "----" ++ [msg sp].

Definition span_text (sp : span) : list ascii :=
  txt "TAG ID:" ++ ws sp ++ tag sp ++ gap sp ++ txt "----" ++ msg sp.

Definition nonempty (s : list ascii) : bool :=
  match s with [] => false | _ :: _ => true end.

(** The language of the pattern. *)
Definition well_formed (sp : span) : bool :=
  forallb Chr.is_space (ws sp)
  && nonempty (tag sp) && forallb Chr.is_nonspace (tag sp)
  && nonempty (gap sp) && forallb Chr.is_dot (gap sp)
  && nonempty (msg sp) && forallb Chr.is_wordspace (msg sp).

(** The span a match covers, read off its pieces. *)
Definition span_of (m : Re.found) : span :=
  {| ws := nth 7 (Re.pieces m) [];
     tag := nth 8 (Re.pieces m) [];
     gap := nth 9 (Re.pieces m) [];
     msg := nth 14 (Re.pieces m) [] |}.

(** The dict made from the span of the match number [idx]. *)
Definition entry_of (now : clock) (idx : nat) (sp : span) : entry :=
  {| id := N.of_nat idx + 1;
     tag_id := tag sp;
     message := Py.strip (msg sp);
     timestamp := now idx |}.

(** *** Texts laid out as delimited spans *)

(** A span and the text after its message run, up to the next span or
    the end of the text. *)
Record placed : Type := { at_span : span; trail : list ascii }.

(** The text made of [lead] and then the spans, each with its trail. *)
Fixpoint layout (lead : list ascii) (l : list placed) : list ascii :=
  match l with
  | [] => lead
  | x :: l' => lead ++ span_text (at_span x) ++ layout (trail x) l'
  end.

(** No marker in a text. *)
Definition marker_free (s : list ascii) : bool :=
  negb (Sub.contains (txt "TAG ID:") s).

(** A message run stops here: at the end of the text or at a character
    that is neither a word character nor white space. *)
Definition stops (s : list ascii) : bool :=
  match s with
  | [] => true
  | c :: _ => negb (Chr.is_wordspace c)
  end.

(** A well-formed span whose token is followed by white space and whose
    gap has no hyphen. *)
Definition delimited (sp : span) : bool :=
  well_formed sp
  && match gap sp with c :: _ => Chr.is_space c | [] => false end
  && forallb (fun c => negb (Ascii.eqb "-" c)) (gap sp).

(** A layout of delimited spans: no marker outside the spans, and every
    message run stops where the span ends. *)
Fixpoint laid_out (lead : list ascii) (l : list placed) : bool :=
  marker_free lead
  && match l with
     | [] => true
     | x :: l' =>
         delimited (at_span x)
         && stops (layout (trail x) l')
         && laid_out (trail x) l'
     end.

(** No match starts inside [lead] when the marker starts nowhere in it. *)
Definition quiet (lead s : list ascii) : Prop :=
  forall a b, lead = a ++ b -> b <> [] ->
              Sub.prefix (txt "TAG ID:") (b ++ s) = false.

(** A text contains a well-formed span. *)
Definition has_span (text : list ascii) : Prop :=
  exists pre sp post,
    well_formed sp = true /\ text = pre ++ span_text sp ++ post.

(* ------------------------------------------------------------------ *)
(** ** The table [page_content] *)

Module Sql.

(** The pattern matching of SQLite's [LIKE]: [%] stands for any run of
    characters, [_] for any one character, and any other character for
    itself, letters of ASCII compared without case. *)
Fixpoint pattern_compare (pat s : list ascii) : bool :=
  match pat with
  | [] => match s with [] => true | _ :: _ => false end
  | p :: pat' =>
      if Ascii.eqb p "%" then
        (fix any (s : list ascii) : bool :=
           pattern_compare pat' s
           || match s with [] => false | _ :: s' => any s' end) s
      else
        match s with
        | [] => false
        | c :: s' =>
            (Ascii.eqb p "_" || Ascii.eqb (Chr.lower p) (Chr.lower c))
            && pattern_compare pat' s'
        end
  end.

(** A text as the functions of SQLite read it, as a C string: up to its
    first NUL. *)
Fixpoint cstr (s : list ascii) : list ascii :=
  match s with
  | [] => []
  | c :: s' => if Chr.has_code 0 c then [] else c :: cstr s'
  end.

(** The value of [s LIKE pat]: pattern and text are read as C strings. *)
Definition like (pat s : list ascii) : bool :=
  pattern_compare (cstr pat) (cstr s).

(** The length of a text in bytes, in UTF-8: one byte for a character of
    ASCII, two for the others below 256. *)
Definition utf8_bytes (s : list ascii) : N :=
  fold_right (fun c n => ((if (Chr.code c <? 128)%N then 1 else 2) + n)%N)
             0%N s.

(** SQLite's limit on the bytes of a [LIKE] pattern. *)
Definition max_like_pattern_length : N := 50000.

(** [LIKE] fails with [LIKE or GLOB pattern too complex] on a pattern
    over the limit, the whole pattern counted. *)
Definition too_complex (pat : list ascii) : bool :=
  (max_like_pattern_length <? utf8_bytes pat)%N.

End Sql.

(** The exception of the database that the program can meet. *)
Inductive OperationalError : Type := PatternTooComplex.

Module PageContent.

(** A row of the table: the columns of the class [PageContent].  The
    [DateTime] column of SQLite keeps no zone. *)
Record t : Type :=
  { id : N; content : list ascii; timestamp : Py.datetime }.

End PageContent.

(** The table, in the order of insertion. *)
Definition table := list PageContent.t.

(** The key SQLite gives a new row: one more than the largest in use. *)
Definition next_id (db : table) : N :=
  fold_right N.max 0%N (map PageContent.id db) + 1.

(** The argument of [like] in [save_content_to_db]. *)
Definition tag_like (tag : list ascii) : list ascii :=
  txt "%TAG ID: " ++ tag ++ txt "%".

(** [db.query(PageContent).filter(PageContent.content.like(pat)).first()]:
    the first row the pattern selects.  [LIKE] is evaluated on the rows
    in order, so a pattern over the limit raises as soon as there is a
    row, and goes unseen on the empty table. *)
Definition query_like_first (pat : list ascii) (db : table)
  : OperationalError + option PageContent.t :=
  match db with
  | [] => inr None
  | _ :: _ =>
      if Sql.too_complex pat then inl PatternTooComplex
      else inr (find (fun r => Sql.like pat (PageContent.content r)) db)
  end.

(** The duplicate check of [save_content_to_db] as a test: the query
    returns a row. *)
Definition exists_by_tag (tag : list ascii) (db : table) : bool :=
  match query_like_first (tag_like tag) db with
  | inr (Some _) => true
  | _ => false
  end.

(** [PageContent(content=str(entry), timestamp=entry["timestamp"])],
    [db.add] and [db.commit]. *)
Definition db_add (e : entry) (db : table) : table :=
  db ++ [ {| PageContent.id := next_id db;
             PageContent.content := str_entry e;
             PageContent.timestamp := Py.naive (timestamp e) |} ].

(** What the program prints, and the exception a call ends with. *)
Inductive output : Type :=
| NoValidEntries                      (* No valid entries found ... *)
| AlreadyExists (tag : list ascii)    (* Content with TAG ID .. already exists *)
| Saved (tag : list ascii)            (* Content with TAG ID .. saved. *)
| NewContentSaved (at_ : Py.datetime) (* New content saved at .. *)
| FetchFailed (status_code : N)       (* Failed to fetch page: .. *)
| MonitorError                        (* Error monitoring page: .. *)
| Raise (e : OperationalError).       (* the call raises here *)

Definition is_raise (o : output) : bool :=
  match o with Raise _ => true | _ => false end.

(** A call ended with an exception. *)
Definition raised (out : list output) : bool := existsb is_raise out.

(** The lines among the outputs. *)
Definition printed (out : list output) : list output :=
  filter (fun o => negb (is_raise o)) out.

(** The loop over the parsed entries.  An exception of the query leaves
    the loop, and the function after [db.close()]; the rows committed
    before it stay. *)
Fixpoint save_entries (parsed_entries : list entry) (db : table)
  : table * list output :=
  match parsed_entries with
  | [] => (db, [])
  | e :: rest =>
      match query_like_first (tag_like (tag_id e)) db with
      | inl err => (db, [Raise err])
      | inr (Some _) =>
          let '(db', out) := save_entries rest db in
          (db', AlreadyExists (tag_id e) :: out)
      | inr None =>
          let '(db', out) := save_entries rest (db_add e db) in
          (db', Saved (tag_id e) :: out)
      end
  end.

Definition save_content_to_db (now : clock) (content : list ascii) (db : table)
  : table * list output :=
  match parse_content now content with
  | [] => (db, [NoValidEntries])
  | parsed_entries => save_entries parsed_entries db
  end.

(** The table after a series of calls of [save_content_to_db], each with
    its clock and its content, from the empty table. *)
Definition stored (calls : list (clock * list ascii)) : table :=
  fold_left (fun db c => fst (save_content_to_db (fst c) (snd c) db)) calls [].

(** A text the automaton reads to the end. *)
Definition clean (s : list ascii) : Prop :=
  exists q, Dcs.run Dcs.Nothing s = Some q.

Definition clean_table (db : table) : Prop :=
  Forall (fun r => clean (PageContent.content r)) db.



(* ------------------------------------------------------------------ *)
(** ** The monitor *)

(** The state the loop of [monitor_page] carries: the global
    [last_content] and the table. *)
Record state : Type := { last_content : list ascii; db : table }.

(** What [client.get] does in one cycle. *)
Inductive fetched : Type :=
| Raised                                         (* an exception *)
| Response (status_code : N) (text : list ascii).

Definition text_eq_dec : forall a b : list ascii, {a = b} + {a <> b} :=
  list_eq_dec ascii_dec.

(** The body of the [while True] loop.  The cache is set before
    [save_content_to_db] runs; an exception of that call is caught by the
    [except] of the loop, which prints its line in place of
    [New content saved]. *)
Definition monitor_cycle (now : clock) (r : fetched) (st : state)
  : state * list output :=
  match r with
  | Raised => (st, [MonitorError])
  | Response status_code text =>
      if (status_code =? 200)%N then
        let content := Py.strip text in
        if text_eq_dec content (last_content st) then (st, [])
        else
          let '(db', out) := save_content_to_db now content (db st) in
          ({| last_content := content; db := db' |},
           if raised out then printed out ++ [MonitorError]
           else out ++ [NewContentSaved
                          (now (length (parse_content now content)))])
      else (st, [FetchFailed status_code])
  end.

(** The first cycles of [monitor_page], one clock and one fetch each. *)
Fixpoint monitor_page (cycles : list (clock * fetched)) (st : state)
  : state * list output :=
  match cycles with
  | [] => (st, [])
  | (now, r) :: cycles' =>
      let '(st', out) := monitor_cycle now r st in
      let '(st'', out') := monitor_page cycles' st' in
      (st'', out ++ out')
  end.

(** The state at start-up: [last_content] is the empty text. *)
Definition initial (db : table) : state := {| last_content := []; db := db |}.

(* ------------------------------------------------------------------ *)
(** ** The read handler *)

Record HTTPException : Type := { status_code : N; detail : list ascii }.

(** One element of the JSON answer of [GET /content]. *)
Record item : Type :=
  { item_id : N; item_content : list ascii; item_timestamp : list ascii }.

Definition get_saved_content (db : table) : HTTPException + list item :=
  match db with
  | [] => inl {| status_code := 404; detail := txt "No content found" |}
  | contents =>
      inr (map (fun c =>
                  {| item_id := PageContent.id c;
                     item_content := PageContent.content c;
                     item_timestamp := Py.isoformat (PageContent.timestamp c) |})
               contents)
  end.


(* ------------------------------------------------------------------ *)
(** ** Sample data *)

Module Sample.

Definition time : Py.datetime :=
  {| Py.year := 2024; Py.month := 1; Py.day := 2;
     Py.hour := 3; Py.minute := 4; Py.second := 5; Py.microsecond := 0;
     Py.tz := Some Py.STD |}.

Definition now : clock := fun _ => time.

(** Two markers before one separator. *)
Definition two_markers : list ascii := txt "TAG ID: a TAG ID: b ---- msg".

(** A marker inside a line, and a second line after the message. *)
Definition two_lines : list ascii :=
  txt "noise TAG ID: abc123 blah ---- hello world" ++ Chr.newline :: txt "more".

(** A line feed between the token and the separator. *)
Definition broken_gap : list ascii :=
  txt "TAG ID: abc" ++ Chr.newline :: txt "x ---- msg".

(** A line feed between the marker and the token. *)
Definition broken_marker : list ascii :=
  txt "TAG ID:" ++ Chr.newline :: txt "abc x ---- msg".

Definition tag42 : list ascii := txt "TAG ID: 42 x ---- hello".
Definition tag42_again : list ascii := txt "TAG ID: 42 y ---- again".

(** The dict [parse_content] makes of [tag42]. *)
Definition entry42 (now : clock) : entry :=
  {| id := 1; tag_id := txt "42"; message := txt "hello";
     timestamp := now 0 |}.

(** A body, and the same body with a space after it. *)
Definition body : list ascii := txt "TAG ID: 1 x ---- m".
Definition body_padded : list ascii := txt "TAG ID: 1 x ---- m ".

(** Two well-formed spans, one right after the other. *)
Definition span_a : span :=
  {| ws := txt " "; tag := txt "a"; gap := txt " x "; msg := txt " m1 " |}.
Definition span_b : span :=
  {| ws := txt " "; tag := txt "b"; gap := txt " y "; msg := txt " m2" |}.

(** Two spans, a semicolon after the first message run. *)
Definition span_1 : span :=
  {| ws := txt " "; tag := txt "1"; gap := txt " x "; msg := txt " m1" |}.
Definition span_2 : span :=
  {| ws := txt " "; tag := txt "2"; gap := txt " y "; msg := txt " m2" |}.
Definition two_spans : list placed :=
  [ {| at_span := span_1; trail := txt ";" |};
    {| at_span := span_2; trail := [] |} ].

End Sample.

(* ------------------------------------------------------------------ *)
(** ** Runs of the monitor and accounts of a call *)

(** A cycle whose fetch came back with status 200. *)
Definition fetched_ok (c : clock * fetched) : bool :=
  match snd c with
  | Response code _ => (code =? 200)%N
  | Raised => false
  end.

(** The state after the first cycles of the monitor, started on the
    empty table. *)
Definition reached (cycles : list (clock * fetched)) : state :=
  fst (monitor_page cycles (initial [])).

(** The text put back together from the matches of a scan and the text
    after the last one. *)
Fixpoint rebuild (ms : list Re.found) (tail : list ascii) : list ascii :=
  match ms with
  | [] => tail
  | m :: ms' => Re.skipped m ++ Re.matched m ++ rebuild ms' tail
  end.

(** The number of lines [Content with TAG ID .. saved.] in an output. *)
Definition count_saved (out : list output) : nat :=
  length (filter (fun o => match o with Saved _ => true | _ => false end) out).

(** A text that is empty or starts with a character that is not white
    space. *)
Definition starts_black (s : list ascii) : Prop :=
  match s with
  | [] => True
  | c :: _ => Chr.is_space c = false
  end.

(** The row numbers 1 to [n]. *)
Definition first_ids (n : nat) : list N := map N.of_nat (seq 1 n).

(** The number of matches of the pattern in a trimmed body. *)
Definition matches_in (body : list ascii) : nat :=
  length (Re.finditer tag_pattern (Py.strip body)).

(** The pattern of the duplicate check for this tag is within SQLite's
    limit. *)
Definition short_tag (tag : list ascii) : bool :=
  negb (Sql.too_complex (tag_like tag)).

(** The line [Error monitoring page] is among the outputs. *)
Definition errored (out : list output) : bool :=
  existsb (fun o => match o with MonitorError => true | _ => false end) out.

Module Legacy.

(** A table with one row that holds a line of the page as it is. *)
Definition row : PageContent.t :=
  {| PageContent.id := 1;
     PageContent.content := txt "TAG ID: 42 x ---- hello";
     PageContent.timestamp := Py.naive Sample.time |}.

Definition table : table := [row].

End Legacy.
(* ------------------------------------------------------------------ *)
(** * Facts about the engine *)

Module ReFacts.
Import Re.

Section RepeatFacts.
Context {R : Type} (f : charset) (k : list ascii -> option R).

Lemma leave_some min s run r :
  leave k min s = Some (run, r) -> min = 0 /\ run = [] /\ k s = Some r.
Proof.
  destruct min; simpl; [|discriminate].
  destruct (k s); simpl; [|discriminate].
  intros H; injection H as <- <-; auto.
Qed.

Lemma took_some c (o : option (list ascii * R)) run r :
  took c o = Some (run, r) ->
  exists run', run = c :: run' /\ o = Some (run', r).
Proof.
  destruct o as [[run' x]|]; simpl; [|discriminate].
  intros H; injection H as <- <-; eauto.
Qed.

Lemma max_repeat_sound s : forall min run r,
  max_repeat f k min s = Some (run, r) ->
  Forall (fun c => f c = true) run /\ min <= length run
  /\ exists s', s = run ++ s' /\ k s' = Some r.
Proof.
  induction s as [|c s IH]; intros min run r; simpl.
  - intros H; apply leave_some in H as (-> & -> & Hk).
    repeat split; auto. exists []; auto.
  - destruct (f c) eqn:Hc.
    + destruct (took c (max_repeat f k (pred min) s)) as [[run' x]|] eqn:Ht.
      * intros H; injection H as <- <-.
        apply took_some in Ht as (run0 & -> & Hm).
        apply IH in Hm as (Hall & Hlen & s' & -> & Hk).
        repeat split; [constructor; auto | simpl; lia | exists s'; auto].
      * intros H; apply leave_some in H as (-> & -> & Hk).
        repeat split; auto. exists (c :: s); auto.
    + intros H; apply leave_some in H as (-> & -> & Hk).
      repeat split; auto. exists (c :: s); auto.
Qed.

Lemma min_repeat_sound s : forall min run r,
  min_repeat f k min s = Some (run, r) ->
  Forall (fun c => f c = true) run /\ min <= length run
  /\ exists s', s = run ++ s' /\ k s' = Some r.
Proof.
  induction s as [|c s IH]; intros min run r; simpl.
  - destruct (leave k min []) as [[run' x]|] eqn:Hl; [|discriminate].
    intros H; injection H as <- <-.
    apply leave_some in Hl as (-> & -> & Hk).
    repeat split; auto. exists []; auto.
  - destruct (leave k min (c :: s)) as [[run' x]|] eqn:Hl.
    + intros H; injection H as <- <-.
      apply leave_some in Hl as (-> & -> & Hk).
      repeat split; auto. exists (c :: s); auto.
    + destruct (f c) eqn:Hc; [|discriminate].
      intros Ht. apply took_some in Ht as (run0 & -> & Hm).
      apply IH in Hm as (Hall & Hlen & s' & -> & Hk).
      repeat split; [constructor; auto | simpl; lia | exists s'; auto].
Qed.

(** A greedy repeat keeps the whole run when the run cannot be extended
    and the rest of the pattern accepts what follows. *)
Lemma max_repeat_longest run : forall min rest r,
  Forall (fun c => f c = true) run ->
  min <= length run ->
  match rest with [] => True | c :: _ => f c = false end ->
  k rest = Some r ->
  max_repeat f k min (run ++ rest) = Some (run, r).
Proof.
  induction run as [|c run IH]; intros min rest r Hall Hlen Hstop Hk; simpl.
  - simpl in Hlen. assert (min = 0) as -> by lia.
    destruct rest as [|d rest]; simpl; [now rewrite Hk|].
    rewrite Hstop. simpl. now rewrite Hk.
  - inversion Hall as [|? ? Hc Hall']; subst.
    rewrite Hc, (IH (pred min) rest r); auto.
    simpl in Hlen; lia.
Qed.

(** A lazy repeat takes the whole run when the rest of the pattern
    refuses to start at any character of the run. *)
Lemma min_repeat_shortest run : forall min rest r,
  Forall (fun c => f c = true /\ forall s, k (c :: s) = None) run ->
  min <= length run ->
  k rest = Some r ->
  min_repeat f k min (run ++ rest) = Some (run, r).
Proof.
  induction run as [|c run IH]; intros min rest r Hall Hlen Hk.
  - simpl in Hlen. assert (min = 0) as -> by lia.
    destruct rest; simpl; now rewrite Hk.
  - inversion Hall as [|? ? [Hc Hno] Hall']; subst.
    simpl app.
    assert (leave k min (c :: run ++ rest) = None) as Hl.
    { destruct min; simpl; [now rewrite Hno | reflexivity]. }
    simpl. simpl in Hl. rewrite Hl, Hc, (IH (pred min) rest r); auto.
    simpl in Hlen; lia.
Qed.

(** A greedy repeat finds a match whenever some run of the set leads to
    one: it tries every length. *)
Lemma max_repeat_complete run : forall min rest,
  Forall (fun c => f c = true) run ->
  min <= length run ->
  k rest <> None ->
  max_repeat f k min (run ++ rest) <> None.
Proof.
  induction run as [|c run IH]; intros min rest Hall Hlen Hk.
  - simpl in Hlen. assert (min = 0) as -> by lia. simpl.
    destruct rest as [|d rest]; simpl.
    + destruct (k []); [discriminate | contradiction].
    + destruct (f d); [destruct (took d _); [discriminate|]|];
        simpl; destruct (k (d :: rest)); try discriminate; contradiction.
  - inversion Hall as [|? ? Hc Hall']; subst. simpl. rewrite Hc.
    specialize (IH (pred min) rest Hall' ltac:(simpl in Hlen; lia) Hk).
    destruct (max_repeat f k (pred min) (run ++ rest)) as [[]|];
      [discriminate | contradiction].
Qed.

Lemma min_repeat_complete run : forall min rest,
  Forall (fun c => f c = true) run ->
  min <= length run ->
  k rest <> None ->
  min_repeat f k min (run ++ rest) <> None.
Proof.
  induction run as [|c run IH]; intros min rest Hall Hlen Hk.
  - simpl in Hlen. assert (min = 0) as -> by lia.
    destruct rest; simpl; destruct (k _); try discriminate; contradiction.
  - inversion Hall as [|? ? Hc Hall']; subst. simpl app.
    specialize (IH (pred min) rest Hall' ltac:(simpl in Hlen; lia) Hk).
    simpl. destruct (leave k min (c :: run ++ rest)); [discriminate|].
    rewrite Hc.
    destruct (min_repeat f k (pred min) (run ++ rest)) as [[]|];
      [discriminate | contradiction].
Qed.

End RepeatFacts.

(** Soundness of the matcher: the pieces are a split of the text taken,
    each within its character set and its bounds. *)
Lemma exec_sound p : forall s segs rest,
  exec p s = Some (segs, rest) ->
  s = concat segs ++ rest
  /\ Forall2 (fun pc run => fits (body pc) run) p segs.
Proof.
  induction p as [|pc p IH]; intros s segs rest; simpl.
  - intros H; injection H as <- <-; auto.
  - destruct (body pc) as [f|min f|min f] eqn:Hb.
    + destruct s as [|c s]; [discriminate|].
      destruct (f c) eqn:Hc; [|discriminate].
      destruct (exec p s) as [[segs' rest']|] eqn:He; [|discriminate].
      simpl; intros H; injection H as <- <-.
      apply IH in He as [-> HF]. split; [reflexivity|].
      constructor; [rewrite Hb; exists c; auto | assumption].
    + destruct (max_repeat f (exec p) min s) as [[run [segs' rest']]|] eqn:Hm;
        [|discriminate].
      simpl; intros H; injection H as <- <-.
      apply max_repeat_sound in Hm as (Hall & Hlen & s' & -> & He).
      apply IH in He as [-> HF]. split; [now rewrite app_assoc|].
      constructor; [rewrite Hb; split; auto | assumption].
    + destruct (min_repeat f (exec p) min s) as [[run [segs' rest']]|] eqn:Hm;
        [|discriminate].
      simpl; intros H; injection H as <- <-.
      apply min_repeat_sound in Hm as (Hall & Hlen & s' & -> & He).
      apply IH in He as [-> HF]. split; [now rewrite app_assoc|].
      constructor; [rewrite Hb; split; auto | assumption].
Qed.

(** What [search] returns is a match of [exec] at the position found. *)
Lemma search_sound p : forall s m,
  search p s = Some m ->
  s = skipped m ++ matched m ++ after m
  /\ exec p (matched m ++ after m) = Some (pieces m, after m).
Proof.
  induction s as [|c s IH]; intros m; simpl.
  - destruct (exec p []) as [[segs rest]|] eqn:He; [|discriminate].
    intros H; injection H as <-. unfold matched; simpl.
    destruct (exec_sound _ _ _ _ He) as [Hs _]. now rewrite <- Hs.
  - destruct (exec p (c :: s)) as [[segs rest]|] eqn:He.
    + intros H; injection H as <-. unfold matched; simpl.
      destruct (exec_sound _ _ _ _ He) as [Hs _]. now rewrite <- Hs.
    + destruct (search p s) as [m'|] eqn:Hs; [|discriminate].
      simpl; intros H; injection H as <-.
      destruct (IH m' eq_refl) as [-> He']. split; [reflexivity|exact He'].
Qed.

Lemma scan_sound p fuel : forall s m,
  In m (scan fuel p s) ->
  exec p (matched m ++ after m) = Some (pieces m, after m).
Proof.
  induction fuel as [|fuel IH]; intros s m; simpl; [tauto|].
  destruct (search p s) as [m'|] eqn:Hs; simpl; [|tauto].
  intros [<-|Hin]; [apply (search_sound _ _ _ Hs) | eapply IH; eauto].
Qed.

Lemma search_shrinks p s m :
  starts_single p -> search p s = Some m -> length (after m) < length s.
Proof.
  intros Hp Hs. destruct (search_sound _ _ _ Hs) as [-> He].
  apply exec_sound in He as [_ HF].
  destruct p as [|pc p]; [contradiction|]. simpl in Hp.
  inversion HF as [|? run ? segs Hfit HF' E1 E2]; subst.
  destruct (body pc); try contradiction.
  destruct Hfit as (c & -> & _).
  unfold matched. rewrite <- E2. simpl.
  rewrite !length_app. simpl. rewrite length_app. lia.
Qed.

(** The rounds of [finditer] are enough: more rounds find nothing more. *)
Lemma scan_fuel p : starts_single p ->
  forall n m s, length s < n -> length s < m -> scan n p s = scan m p s.
Proof.
  intros Hp. induction n as [|n IH]; intros m s Hn Hm; [lia|].
  destruct m as [|m]; [lia|]. simpl.
  destruct (search p s) as [x|] eqn:Hs; [|reflexivity].
  f_equal. pose proof (search_shrinks _ _ _ Hp Hs). apply IH; lia.
Qed.

(** Completeness of the matcher: it finds a match wherever the text
    starts with a word of the pattern's language. *)
Lemma exec_complete p : forall segs rest,
  Forall2 (fun pc run => fits (body pc) run) p segs ->
  exec p (concat segs ++ rest) <> None.
Proof.
  induction p as [|pc p IH]; intros segs rest HF;
    inversion HF as [|? run ? segs' Hfit HF']; subst; simpl; [discriminate|].
  specialize (IH segs' rest HF'). rewrite <- app_assoc.
  destruct (body pc) as [f|min f|min f]; simpl in Hfit.
  - destruct Hfit as (c & -> & Hc). simpl. rewrite Hc.
    destruct (exec p _); [discriminate | contradiction].
  - destruct Hfit as [Hall Hlen].
    pose proof (max_repeat_complete f (exec p) run min _ Hall Hlen IH) as H.
    destruct (max_repeat f (exec p) min _) as [[]|];
      [discriminate | contradiction].
  - destruct Hfit as [Hall Hlen].
    pose proof (min_repeat_complete f (exec p) run min _ Hall Hlen IH) as H.
    destruct (min_repeat f (exec p) min _) as [[]|];
      [discriminate | contradiction].
Qed.

Lemma search_complete p pre : forall s,
  exec p s <> None -> search p (pre ++ s) <> None.
Proof.
  induction pre as [|c pre IH]; intros s He.
  - simpl. destruct s; simpl; destruct (exec p _) as [[]|];
      try discriminate; contradiction.
  - cbn [app search]. destruct (exec p (c :: pre ++ s)) as [[]|];
      [discriminate|].
    specialize (IH s He). destruct (search p (pre ++ s));
      [discriminate | contradiction].
Qed.

End ReFacts.

Module ExtractFacts.
Import Re ReFacts.

Lemma forallb_of_Forall (f : ascii -> bool) l :
  Forall (fun c => f c = true) l -> forallb f l = true.
Proof. intros H; apply forallb_forall; now apply Forall_forall. Qed.

Lemma Forall_of_forallb (f : ascii -> bool) l :
  forallb f l = true -> Forall (fun c => f c = true) l.
Proof. intros H; apply Forall_forall; now apply forallb_forall. Qed.

Lemma nonempty_length (s : list ascii) : 1 <= length s -> nonempty s = true.
Proof. destruct s; simpl; [lia | reflexivity]. Qed.

Ltac peel H :=
  let Hfit := fresh "Hfit" in
  inversion H as [|? ? ? ? Hfit H']; subst; clear H; rename H' into H;
  cbv [fits body lit plain group] in Hfit.

Ltac literal_piece H :=
  let c := fresh "c" in
  let Hc := fresh "Hc" in
  destruct H as (c & -> & Hc); apply Ascii.eqb_eq in Hc; subst c.

(** Every match of the pattern is a well-formed span, piece by piece. *)
Lemma exec_tag_sound s segs rest :
  exec tag_pattern s = Some (segs, rest) ->
  exists sp, well_formed sp = true /\ segs = span_pieces sp
             /\ s = span_text sp ++ rest.
Proof.
  intros He. apply exec_sound in He as [-> HF].
  unfold tag_pattern, literal in HF; simpl in HF.
  do 15 peel HF. inversion HF; subst; clear HF.
  repeat match goal with
         | H : exists c, _ = [c] /\ Ascii.eqb _ c = true |- _ => literal_piece H
         end.
  repeat match goal with H : _ /\ _ |- _ => destruct H end.
  match goal with
  | |- context [ [?a; ?b; ?c; ?d; ?e; ?f; ?g; ?w; ?t; ?gp; _; _; _; _; ?ms] ] =>
      exists {| ws := w; tag := t; gap := gp; msg := ms |}
  end.
  unfold well_formed, span_pieces, span_text; simpl.
  repeat split.
  - rewrite !forallb_of_Forall, !nonempty_length by assumption. reflexivity.
  - rewrite !app_nil_r, <- !app_assoc. reflexivity.
Qed.

Lemma matches_well_formed text m :
  In m (finditer tag_pattern text) ->
  well_formed (span_of m) = true
  /\ pieces m = span_pieces (span_of m)
  /\ matched m = span_text (span_of m).
Proof.
  intros Hin. apply scan_sound in Hin.
  destruct (exec_tag_sound _ _ _ Hin) as (sp & Hwf & Hp & Ht).
  assert (span_of m = sp) as -> by (unfold span_of; rewrite Hp; now destruct sp).
  repeat split; auto.
  eapply app_inv_tail; eauto.
Qed.

(** [finditer] has all the rounds it needs on the pattern of
    [parse_content]. *)
Lemma finditer_enough text n :
  length text < n -> scan n tag_pattern text = finditer tag_pattern text.
Proof.
  intros H. apply scan_fuel; [exact I | assumption | lia].
Qed.

Lemma enumerate_from_map {A B} (g : A -> B) l : forall k,
  combine (seq k (length (map g l))) (map g l)
  = map (fun im => (fst im, g (snd im))) (combine (seq k (length l)) l).
Proof.
  induction l as [|x l IH]; intros k; simpl; [reflexivity|].
  f_equal. apply IH.
Qed.

Lemma enumerate_map {A B} (g : A -> B) l :
  Py.enumerate (map g l)
  = map (fun im => (fst im, g (snd im))) (Py.enumerate l).
Proof. apply enumerate_from_map. Qed.

Lemma groups_tag_pattern segs :
  nth 0 (groups tag_pattern segs) [] = nth 8 segs []
  /\ nth 1 (groups tag_pattern segs) [] = nth 14 segs [].
Proof.
  do 15 (destruct segs as [|? segs]; [split; reflexivity|]).
  split; reflexivity.
Qed.

(** [parse_content] is one dict per match of [finditer], numbered from 1. *)
Lemma parse_content_eq now text :
  parse_content now text
  = map (fun im => entry_of now (fst im) (span_of (snd im)))
        (Py.enumerate (finditer tag_pattern text)).
Proof.
  unfold parse_content, findall.
  assert (map (make_entry now)
              (Py.enumerate
                 (map (fun m => groups tag_pattern (pieces m))
                      (finditer tag_pattern text)))
          = map (fun im => entry_of now (fst im) (span_of (snd im)))
                (Py.enumerate (finditer tag_pattern text))) as E.
  { rewrite enumerate_map, map_map. apply map_ext.
    intros [idx m]. unfold make_entry, entry_of, span_of.
    cbn [fst snd tag msg].
    destruct (groups_tag_pattern (pieces m)) as [-> ->]. reflexivity. }
  destruct (map _ (finditer tag_pattern text)) eqn:Hm; [|exact E].
  apply map_eq_nil in Hm. now rewrite Hm.
Qed.

Lemma parse_content_length now text :
  length (parse_content now text) = length (finditer tag_pattern text).
Proof.
  rewrite parse_content_eq, length_map. unfold Py.enumerate.
  rewrite length_combine, length_seq. lia.
Qed.

Lemma in_enumerate {A} (l : list A) i x :
  In (i, x) (Py.enumerate l) -> In x l.
Proof. apply in_combine_r. Qed.

(** Every dict comes from a well-formed span. *)
Lemma parse_content_in now text e :
  In e (parse_content now text) ->
  exists idx sp, e = entry_of now idx sp /\ well_formed sp = true.
Proof.
  rewrite parse_content_eq. intros Hin.
  apply in_map_iff in Hin as ([idx m] & <- & Hin).
  apply in_enumerate in Hin. apply matches_well_formed in Hin as (Hwf & _).
  exists idx, (span_of m); auto.
Qed.

End ExtractFacts.

(* ------------------------------------------------------------------ *)
(** * Facts about the duplicate check *)

Module DedupFacts.
Import ExtractFacts.

(** ** The automaton *)

Lemma run_app a : forall q b,
  Dcs.run q (a ++ b)
  = match Dcs.run q a with Some q' => Dcs.run q' b | None => None end.
Proof.
  induction a as [|c a IH]; intros q b; simpl; [reflexivity|].
  destruct (Dcs.step q c); auto.
Qed.

Lemma run_hit a : forall q d b,
  Dcs.is_d d = true ->
  Dcs.run q (a ++ d :: ":"%char :: " "%char :: b) = None.
Proof.
  induction a as [|c a IH]; intros q d b Hd; simpl.
  - unfold Dcs.step at 1. rewrite Hd. reflexivity.
  - destruct (Dcs.step q c); auto.
Qed.

Lemma lower_colon c : Chr.lower ":" = Chr.lower c -> c = ":"%char.
Proof.
  destruct c as [[] [] [] [] [] [] [] []]; vm_compute;
    intros H; try discriminate H; reflexivity.
Qed.

Lemma lower_space c : Chr.lower " " = Chr.lower c -> c = " "%char.
Proof.
  destruct c as [[] [] [] [] [] [] [] []]; vm_compute;
    intros H; try discriminate H; reflexivity.
Qed.

Lemma like_percent P s :
  Sql.pattern_compare ("%"%char :: P) s
  = Sql.pattern_compare P s
    || match s with
       | [] => false
       | _ :: s' => Sql.pattern_compare ("%"%char :: P) s'
       end.
Proof. destruct s; reflexivity. Qed.

Lemma like_percent_split P s :
  Sql.pattern_compare ("%"%char :: P) s = true ->
  exists a b, s = a ++ b /\ Sql.pattern_compare P b = true.
Proof.
  induction s as [|c s IH]; rewrite like_percent; intros H;
    apply orb_true_iff in H as [H|H]; try discriminate.
  - exists [], []; auto.
  - exists [], (c :: s); auto.
  - destruct (IH H) as (a & b & -> & Hb). exists (c :: a), b; auto.
Qed.

Lemma like_char p P s :
  Ascii.eqb p "%" = false -> Ascii.eqb p "_" = false ->
  Sql.pattern_compare (p :: P) s = true ->
  exists c s', s = c :: s' /\ Chr.lower p = Chr.lower c
               /\ Sql.pattern_compare P s' = true.
Proof.
  intros H1 H2. simpl. rewrite H1, H2.
  destruct s as [|c s]; [discriminate|]. simpl.
  intros H; apply andb_true_iff in H as [Hc Hs].
  apply Ascii.eqb_eq in Hc. eauto.
Qed.

Ltac like_step H c r :=
  apply like_char in H as (c & r & -> & ? & H); [|reflexivity|reflexivity].

(** A text that a pattern starting with [%TAG ID: ] matches stops the
    automaton. *)
Lemma compare_hit rest s q :
  Sql.pattern_compare
    ("%"%char :: "T"%char :: "A"%char :: "G"%char :: " "%char
     :: "I"%char :: "D"%char :: ":"%char :: " "%char :: rest) s = true ->
  Dcs.run q s = None.
Proof.
  intros H.
  apply like_percent_split in H as (a & b & -> & H).
  like_step H c1 r1. like_step H c2 r2. like_step H c3 r3.
  like_step H c4 r4. like_step H c5 r5. like_step H c6 r6.
  like_step H c7 r7. like_step H c8 r8.
  match goal with E : Chr.lower ":" = _ |- _ => apply lower_colon in E end.
  match goal with E : Chr.lower " " = Chr.lower c8 |- _ =>
    apply lower_space in E end.
  subst c7 c8.
  change (a ++ c1 :: c2 :: c3 :: c4 :: c5 :: c6 :: ":"%char :: " "%char :: r8)
    with (a ++ [c1; c2; c3; c4; c5] ++ c6 :: ":"%char :: " "%char :: r8).
  rewrite app_assoc. apply run_hit.
  unfold Dcs.is_d. apply Ascii.eqb_eq. symmetry. assumption.
Qed.

(** A text is its C string and what follows the first NUL. *)
Lemma cstr_prefix s : exists x, s = Sql.cstr s ++ x.
Proof.
  induction s as [|c s (x & E)]; simpl; [now exists []|].
  destruct (Chr.has_code 0 c); [now exists (c :: s)|].
  exists x. simpl. now f_equal.
Qed.

(** The literal start of the pattern of the check has no NUL. *)
Lemma cstr_tag_like t :
  Sql.cstr (tag_like t)
  = "%"%char :: "T"%char :: "A"%char :: "G"%char :: " "%char
    :: "I"%char :: "D"%char :: ":"%char :: " "%char
    :: Sql.cstr (t ++ txt "%").
Proof. reflexivity. Qed.

(** A text the pattern of the duplicate check matches stops the
    automaton. *)
Lemma like_hit t s q :
  Sql.like (tag_like t) s = true -> Dcs.run q s = None.
Proof.
  unfold Sql.like. rewrite cstr_tag_like. intros H.
  apply compare_hit with (q := q) in H.
  destruct (cstr_prefix s) as (x & E). rewrite E, run_app, H. reflexivity.
Qed.

Lemma prefix_cons c P s :
  Sub.prefix (c :: P) s = true ->
  exists s', s = c :: s' /\ Sub.prefix P s' = true.
Proof.
  destruct s as [|d s]; simpl; [discriminate|].
  intros H; apply andb_true_iff in H as [Hc Hs].
  apply Ascii.eqb_eq in Hc; subst d. eauto.
Qed.

Lemma contains_split P s :
  Sub.contains P s = true ->
  exists a b, s = a ++ b /\ Sub.prefix P b = true.
Proof.
  induction s as [|c s IH]; simpl; intros H;
    apply orb_true_iff in H as [H|H]; try discriminate.
  - exists [], []; auto.
  - exists [], (c :: s); auto.
  - destruct (IH H) as (a & b & -> & Hb). exists (c :: a), b; auto.
Qed.

(** A text that contains [TAG ID: ] stops the automaton as well. *)
Lemma contains_hit t s q :
  Sub.contains (txt "TAG ID: " ++ t) s = true -> Dcs.run q s = None.
Proof.
  intros H. apply contains_split in H as (a & b & -> & H).
  change (txt "TAG ID: " ++ t)
    with ("T"%char :: "A"%char :: "G"%char :: " "%char
          :: "I"%char :: "D"%char :: ":"%char :: " "%char :: t) in H.
  do 8 (apply prefix_cons in H as (? & -> & H)).
  match goal with
  | |- Dcs.run _ (a ++ _ :: _ :: _ :: _ :: _ :: _ :: _ :: _ :: ?r) = _ =>
      change (Dcs.run q (a ++ txt "TAG I"
                           ++ "D"%char :: ":"%char :: " "%char :: r) = None)
  end.
  rewrite app_assoc. apply run_hit. reflexivity.
Qed.

Lemma run_no_space s : forall q,
  ~ In " "%char s -> exists q', Dcs.run q s = Some q'.
Proof.
  induction s as [|c s IH]; intros q Hs; simpl; [eauto|].
  assert (exists q', Dcs.step q c = Some q') as [q' ->].
  { unfold Dcs.step. destruct (Dcs.is_d c); [eauto|].
    destruct (Ascii.eqb c ":"); [eauto|].
    destruct (Ascii.eqb c " ") eqn:E; [|eauto].
    apply Ascii.eqb_eq in E. subst c. exfalso. apply Hs. now left. }
  apply IH. intros Hin. apply Hs. now right.
Qed.

Lemma run_no_colon s : forall q,
  ~ In ":"%char s -> q <> Dcs.SeenDColon ->
  exists q', Dcs.run q s = Some q' /\ q' <> Dcs.SeenDColon.
Proof.
  induction s as [|c s IH]; intros q Hs Hq; simpl; [eauto|].
  assert (exists q', Dcs.step q c = Some q' /\ q' <> Dcs.SeenDColon)
    as (q' & -> & Hq').
  { unfold Dcs.step. destruct (Dcs.is_d c); [eexists; split; eauto; discriminate|].
    destruct (Ascii.eqb c ":") eqn:E.
    - apply Ascii.eqb_eq in E. subst c. exfalso. apply Hs. now left.
    - destruct (Ascii.eqb c " ");
        [destruct q; try contradiction|];
        eexists; split; eauto; discriminate. }
  apply IH; auto. intros Hin. apply Hs. now right.
Qed.

(** ** The characters of the printed values *)

Ltac listed := vm_compute; repeat (first [left; reflexivity | right]).

Lemma in_txt_string c a s : In c (txt (String a s)) <-> c = a \/ In c (txt s).
Proof. unfold txt; simpl. intuition. Qed.

Lemma in_string_of_uint c d :
  In c (txt (NilEmpty.string_of_uint d)) -> In c (txt "0123456789").
Proof.
  induction d; simpl NilEmpty.string_of_uint; try contradiction;
    rewrite in_txt_string; intros [->|H]; auto; listed.
Qed.

Lemma in_str_int c n : In c (Py.str_int n) -> In c (txt "0123456789").
Proof. apply in_string_of_uint. Qed.

Lemma in_join c sep l :
  In c (Py.join sep l) -> In c sep \/ exists x, In x l /\ In c x.
Proof.
  induction l as [|x l IH]; simpl; [tauto|].
  destruct l as [|y l].
  - intros H; right; exists x; auto.
  - rewrite !in_app_iff. intros [H|[H|H]].
    + right; exists x; auto.
    + now left.
    + destruct (IH H) as [H'|(z & Hz & Hc)]; [now left|].
      right; exists z; split; [now right | assumption].
Qed.

Lemma in_repr_char q c x :
  In x (Py.repr_char q c) -> x = c \/ In x Py.repr_extra.
Proof.
  unfold Py.repr_char.
  destruct (Ascii.eqb c q || Ascii.eqb c Chr.backslash).
  { intros [<-|[<-|[]]]; [right; listed | now left]. }
  destruct c as [[] [] [] [] [] [] [] []]; vm_compute; intros H;
    repeat (destruct H as [<-|H]); try contradiction;
    first [left; reflexivity | right; listed].
Qed.

Lemma in_repr_quote s : In (Py.repr_quote s) Py.repr_extra.
Proof. unfold Py.repr_quote. destruct (_ && _); listed. Qed.

Lemma in_repr_str s x :
  In x (Py.repr_str s) -> In x s \/ In x Py.repr_extra.
Proof.
  unfold Py.repr_str. simpl. rewrite in_app_iff, in_flat_map. simpl.
  intros [<-|[(c & Hc & Hx)|[<-|[]]]]; try (right; apply in_repr_quote).
  apply in_repr_char in Hx as [->|Hx]; auto.
Qed.

Lemma in_lstrip c s : In c (Py.lstrip s) -> In c s.
Proof.
  induction s as [|d s IH]; simpl; [tauto|].
  destruct (Chr.is_space d); simpl; auto.
Qed.

Lemma in_strip c s : In c (Py.strip s) -> In c s.
Proof.
  unfold Py.strip, Py.rstrip. intros H.
  apply in_lstrip. apply in_rev in H. apply in_lstrip in H.
  now apply in_rev in H.
Qed.

(** ** What is stored never matches the check *)

Lemma run_lit_id : Dcs.run Dcs.Nothing (txt "{'id': ") = Some Dcs.Nothing.
Proof. reflexivity. Qed.

Lemma run_lit_tag q : Dcs.run q (txt ", 'tag_id': ") = Some Dcs.Nothing.
Proof. destruct q; reflexivity. Qed.

Lemma run_lit_message q : Dcs.run q (txt ", 'message': ") = Some Dcs.Nothing.
Proof. destruct q; reflexivity. Qed.

Lemma run_lit_timestamp q :
  Dcs.run q (txt ", 'timestamp': ") = Some Dcs.Nothing.
Proof. destruct q; reflexivity. Qed.

Lemma no_colon_digits n : ~ In ":"%char (Py.str_int n).
Proof.
  intros H. apply in_str_int in H. vm_compute in H.
  repeat (destruct H as [H|H]; [discriminate H|]). exact H.
Qed.

Lemma no_colon_extra : ~ In ":"%char Py.repr_extra.
Proof.
  vm_compute. intros H.
  repeat (destruct H as [H|H]; [discriminate H|]). exact H.
Qed.

Lemma no_space_extra : ~ In " "%char Py.repr_extra.
Proof.
  vm_compute. intros H.
  repeat (destruct H as [H|H]; [discriminate H|]). exact H.
Qed.

Lemma run_datetime t q :
  q <> Dcs.SeenDColon ->
  exists q', Dcs.run q (Py.repr_datetime t ++ txt "}") = Some q'.
Proof.
  intros Hq. unfold Py.repr_datetime.
  set (fields := if (Py.microsecond t =? 0)%N then _ else _).
  rewrite <- !app_assoc, run_app.
  assert (Dcs.run q (txt "datetime.datetime(") = Some Dcs.Nothing) as ->
      by (destruct q; reflexivity).
  rewrite run_app.
  destruct (run_no_colon (Py.join (txt ", ") (map Py.str_int fields))
                         Dcs.Nothing) as (q1 & -> & Hq1); [|discriminate|].
  { intros H. apply in_join in H as [H|(x & Hx & H)].
    - vm_compute in H. repeat (destruct H as [H|H]; [discriminate H|]). exact H.
    - apply in_map_iff in Hx as (n & <- & _). revert H. apply no_colon_digits. }
  destruct (Py.tz t) as [[]|]; destruct q1; try contradiction;
    vm_compute; eauto.
Qed.

(** The printed dict of an entry whose tag has no space and whose
    message has no colon is read to the end. *)
Lemma str_entry_clean e :
  ~ In " "%char (tag_id e) -> ~ In ":"%char (message e) ->
  clean (str_entry e).
Proof.
  intros Htag Hmsg. unfold clean, str_entry.
  rewrite run_app, run_lit_id, run_app.
  destruct (run_no_colon (Py.str_int (id e)) Dcs.Nothing)
    as (q1 & -> & _); [apply no_colon_digits | discriminate |].
  rewrite run_app, run_lit_tag, run_app.
  destruct (run_no_space (Py.repr_str (tag_id e)) Dcs.Nothing) as (q2 & ->).
  { intros H. apply in_repr_str in H as [H|H]; [auto | now apply no_space_extra]. }
  rewrite run_app, run_lit_message, run_app.
  destruct (run_no_colon (Py.repr_str (message e)) Dcs.Nothing)
    as (q3 & -> & _); [|discriminate|].
  { intros H. apply in_repr_str in H as [H|H]; [auto | now apply no_colon_extra]. }
  rewrite run_app, run_lit_timestamp.
  apply run_datetime. discriminate.
Qed.

Lemma well_formed_tag sp :
  well_formed sp = true -> ~ In " "%char (tag sp).
Proof.
  unfold well_formed. rewrite !andb_true_iff.
  intros [[[[[[_ _] H] _] _] _] _] Hin.
  rewrite forallb_forall in H. now apply H in Hin.
Qed.

Lemma well_formed_msg sp :
  well_formed sp = true -> ~ In ":"%char (msg sp).
Proof.
  unfold well_formed. rewrite !andb_true_iff.
  intros [_ H] Hin.
  rewrite forallb_forall in H. now apply H in Hin.
Qed.

Lemma parsed_clean now text e :
  In e (parse_content now text) -> clean (str_entry e).
Proof.
  intros Hin. apply parse_content_in in Hin as (idx & sp & -> & Hwf).
  apply str_entry_clean; simpl.
  - now apply well_formed_tag.
  - intros H. apply in_strip in H. revert H. now apply well_formed_msg.
Qed.

Lemma clean_like t s : clean s -> Sql.like (tag_like t) s = false.
Proof.
  intros [q Hq]. destruct (Sql.like (tag_like t) s) eqn:E; [|reflexivity].
  rewrite (like_hit _ _ _ E) in Hq. discriminate.
Qed.

Lemma clean_contains t s :
  clean s -> Sub.contains (txt "TAG ID: " ++ t) s = false.
Proof.
  intros [q Hq]. destruct (Sub.contains _ s) eqn:E; [|reflexivity].
  rewrite (contains_hit _ _ _ E) in Hq. discriminate.
Qed.

Lemma clean_find t db :
  clean_table db ->
  find (fun r => Sql.like (tag_like t) (PageContent.content r)) db = None.
Proof.
  induction 1 as [|r db Hr _ IH]; [reflexivity|].
  cbn [find]. now rewrite (clean_like _ _ Hr).
Qed.

(** On a clean table the query finds no row: it returns nothing, or
    raises when the pattern is over the limit and there is a row. *)
Lemma clean_query t db :
  clean_table db ->
  query_like_first (tag_like t) db
  = match db with
    | [] => inr None
    | _ :: _ =>
        if Sql.too_complex (tag_like t) then inl PatternTooComplex
        else inr None
    end.
Proof.
  intros H. unfold query_like_first. destruct db; [reflexivity|].
  destruct (Sql.too_complex (tag_like t)); [reflexivity|].
  now rewrite (clean_find _ _ H).
Qed.

Lemma clean_query_short t db :
  clean_table db -> short_tag t = true ->
  query_like_first (tag_like t) db = inr None.
Proof.
  intros H Hs. rewrite (clean_query _ _ H). destruct db; [reflexivity|].
  unfold short_tag in Hs. apply negb_true_iff in Hs. now rewrite Hs.
Qed.

Lemma clean_db_add e db :
  clean (str_entry e) -> clean_table db -> clean_table (db_add e db).
Proof.
  intros He Hdb. unfold db_add. apply Forall_app. split; [assumption|].
  constructor; [exact He | constructor].
Qed.

(** On a clean table the loop of [save_content_to_db] keeps the table
    clean. *)
Lemma save_entries_clean l : forall db,
  Forall (fun e => clean (str_entry e)) l -> clean_table db ->
  clean_table (fst (save_entries l db)).
Proof.
  induction l as [|e l IH]; intros db Hl Hdb; [exact Hdb|].
  inversion Hl as [|? ? He Hl']; subst. cbn [save_entries].
  destruct (query_like_first (tag_like (tag_id e)) db) as [err|[r|]].
  - exact Hdb.
  - specialize (IH db Hl' Hdb).
    now destruct (save_entries l db).
  - specialize (IH (db_add e db) Hl' (clean_db_add _ _ He Hdb)).
    now destruct (save_entries l (db_add e db)).
Qed.

Lemma save_clean now text db :
  clean_table db -> clean_table (fst (save_content_to_db now text db)).
Proof.
  intros Hdb. unfold save_content_to_db.
  assert (Forall (fun e => clean (str_entry e)) (parse_content now text)) as Hl
      by (apply Forall_forall; intros e; apply parsed_clean).
  destruct (parse_content now text) as [|e l] eqn:Hp; [exact Hdb|].
  now apply save_entries_clean.
Qed.

Lemma stored_from_clean calls : forall db,
  clean_table db ->
  clean_table
    (fold_left (fun db c => fst (save_content_to_db (fst c) (snd c) db))
               calls db).
Proof.
  induction calls as [|[now text] calls IH]; intros db Hdb; simpl; [exact Hdb|].
  apply IH. now apply save_clean.
Qed.

Lemma stored_clean calls : clean_table (stored calls).
Proof. apply stored_from_clean. constructor. Qed.

End DedupFacts.

(* ------------------------------------------------------------------ *)
(** * Facts about texts laid out as spans *)

Module LayoutFacts.
Import Re ReFacts ExtractFacts.

Lemma exec_lit c p s :
  exec (lit c :: p) (c :: s) = option_map (seg [c]) (exec p s).
Proof. simpl. now rewrite Ascii.eqb_refl. Qed.

Lemma exec_lit_other c d p s :
  Ascii.eqb c d = false -> exec (lit c :: p) (d :: s) = None.
Proof. intros H. simpl. now rewrite H. Qed.

Lemma tag_pattern_pieces :
  tag_pattern
  = literal "TAG ID:"
    ++ plain (MaxRepeat 0 Chr.is_space)
    :: group (MaxRepeat 1 Chr.is_nonspace)
    :: plain (MinRepeat 1 Chr.is_dot)
    :: literal "----" ++ [group (MaxRepeat 1 Chr.is_wordspace)].
Proof. reflexivity. Qed.

Lemma exec_literal l : forall p s segs rest,
  exec p s = Some (segs, rest) ->
  exec (map lit l ++ p) (l ++ s) = Some (map (fun c => [c]) l ++ segs, rest).
Proof.
  induction l as [|c l IH]; intros p s segs rest H; [exact H|].
  cbn [map app]. rewrite exec_lit, (IH _ _ _ _ H). reflexivity.
Qed.

Lemma stops_spec (f : ascii -> bool) rest :
  match rest with [] => true | c :: _ => negb (f c) end = true ->
  match rest with [] => True | c :: _ => f c = false end.
Proof. destruct rest; [tauto | apply negb_true_iff]. Qed.

(** The matcher on a delimited span takes exactly the span. *)
Lemma exec_span sp rest :
  delimited sp = true -> stops rest = true ->
  exec tag_pattern (span_text sp ++ rest) = Some (span_pieces sp, rest).
Proof.
  unfold delimited, well_formed. rewrite !andb_true_iff.
  intros [[[[[[[[Hws Htag] Htags] _] Hdots] Hmsg] Hmsgs] Hhead] Hhy] Hstop.
  apply Forall_of_forallb in Hws, Htags, Hdots, Hmsgs.
  rewrite tag_pattern_pieces. unfold span_text, span_pieces, units.
  rewrite <- !app_assoc.
  apply exec_literal.
  (* the white space *)
  cbn [exec body plain group].
  rewrite (max_repeat_longest _ _ (ws sp) 0 _
             ([tag sp; gap sp] ++ map (fun c => [c]) (txt "----") ++ [msg sp],
              rest)); auto; [lia | |].
  { destruct (tag sp) as [|c t]; [discriminate|].
    inversion Htags as [|? ? Hc]; subst. simpl.
    unfold Chr.is_nonspace in Hc. now apply negb_true_iff in Hc. }
  (* the token *)
  cbn [exec body plain group].
  rewrite (max_repeat_longest _ _ (tag sp) 1 _
             ([gap sp] ++ map (fun c => [c]) (txt "----") ++ [msg sp],
              rest)); auto.
  { destruct (tag sp); [discriminate | simpl; lia]. }
  { destruct (gap sp) as [|c g]; [discriminate|]. simpl.
    unfold Chr.is_nonspace. now rewrite Hhead. }
  (* the gap *)
  cbn [exec body plain group].
  rewrite (min_repeat_shortest _ _ (gap sp) 1 _
             (map (fun c => [c]) (txt "----") ++ [msg sp], rest)); auto.
  { apply Forall_forall. intros c Hc. split.
    - rewrite Forall_forall in Hdots. auto.
    - intros s. apply exec_lit_other.
      rewrite forallb_forall in Hhy. apply Hhy in Hc.
      now apply negb_true_iff in Hc. }
  { destruct (gap sp); [discriminate | simpl; lia]. }
  (* the hyphens and the message run *)
  apply (exec_literal (txt "----")).
  cbn [exec body plain group].
  rewrite (max_repeat_longest _ _ (msg sp) 1 _ (@nil (list ascii), rest));
    auto.
  { destruct (msg sp); [discriminate | simpl; lia]. }
  { now apply stops_spec. }
Qed.

Lemma search_here p s segs rest :
  exec p s = Some (segs, rest) ->
  search p s = Some {| skipped := []; pieces := segs; after := rest |}.
Proof. intros H. destruct s; simpl; now rewrite H. Qed.

(** A match starts with the marker. *)
Lemma exec_marker s :
  Sub.prefix (txt "TAG ID:") s = false -> exec tag_pattern s = None.
Proof.
  intros Hp. destruct (exec tag_pattern s) as [[segs rest]|] eqn:He;
    [|reflexivity].
  apply exec_tag_sound in He as (sp & _ & _ & ->).
  unfold span_text in Hp. cbn in Hp. discriminate.
Qed.

Lemma search_skip lead : forall s,
  quiet lead s ->
  search tag_pattern (lead ++ s)
  = option_map (fun m => {| skipped := lead ++ skipped m;
                            pieces := pieces m; after := after m |})
               (search tag_pattern s).
Proof.
  induction lead as [|c lead IH]; intros s Hq.
  - simpl. destruct (search tag_pattern s) as [[]|]; reflexivity.
  - cbn [app search].
    rewrite exec_marker by (apply (Hq [] (c :: lead)); [reflexivity | discriminate]).
    rewrite IH.
    + destruct (search tag_pattern s) as [[]|]; reflexivity.
    + intros a b -> Hb. now apply (Hq (c :: a) b).
Qed.

Lemma contains_app_r p a b :
  Sub.contains p b = true -> Sub.contains p (a ++ b) = true.
Proof.
  intros H. induction a as [|c a IH]; [exact H|].
  cbn [app Sub.contains]. rewrite IH. apply orb_true_r.
Qed.

Lemma contains_prefix p s :
  Sub.prefix p s = true -> Sub.contains p s = true.
Proof. intros H. destruct s; simpl; rewrite H; reflexivity. Qed.

(** A marker cannot start before the end of a text without a marker,
    whatever follows, as long as what follows is nothing or starts with
    the marker's own first letter. *)
Lemma marker_free_quiet lead s :
  marker_free lead = true ->
  match s with [] => True | c :: _ => c = "T"%char end ->
  quiet lead s.
Proof.
  unfold marker_free. intros Hfree Hs a b -> Hb.
  apply negb_true_iff in Hfree.
  assert (Sub.prefix (txt "TAG ID:") b = false) as Hp.
  { destruct (Sub.prefix (txt "TAG ID:") b) eqn:E; [|reflexivity].
    apply contains_prefix in E. apply (contains_app_r _ a) in E. congruence. }
  clear Hfree.
  destruct b as [|c1 [|c2 [|c3 [|c4 [|c5 [|c6 [|c7 b]]]]]]];
    [congruence | .. | exact Hp];
    destruct s as [|c s]; try subst c;
    cbn [app Sub.prefix txt list_ascii_of_string];
    repeat (change (Ascii.eqb ?x "T"%char) with false);
    cbn [andb]; rewrite ?andb_false_r; reflexivity.
Qed.


Lemma search_quiet lead :
  marker_free lead = true -> search tag_pattern lead = None.
Proof.
  intros H. rewrite <- (app_nil_r lead).
  rewrite search_skip by (now apply marker_free_quiet). reflexivity.
Qed.

Lemma span_of_pieces skipped sp after :
  span_of {| Re.skipped := skipped; pieces := span_pieces sp;
             Re.after := after |} = sp.
Proof. now destruct sp. Qed.

(** The scan of a layout of delimited spans finds the spans, in order. *)
Lemma scan_layout l : forall lead fuel,
  laid_out lead l = true -> length l < fuel ->
  map span_of (scan fuel tag_pattern (layout lead l)) = map at_span l.
Proof.
  induction l as [|x l IH]; intros lead fuel Hl Hfuel;
    (destruct fuel as [|fuel]; [lia|]); cbn [laid_out] in Hl;
    rewrite ?andb_true_iff in Hl; cbn [scan layout].
  - destruct Hl as [Hfree _]. now rewrite (search_quiet _ Hfree).
  - destruct Hl as [Hfree [[Hsp Hstop] Hrest]].
    rewrite search_skip.
    + rewrite (search_here _ _ _ _ (exec_span _ _ Hsp Hstop)).
      cbn [option_map map Re.after Re.pieces Re.skipped].
      rewrite span_of_pieces.
      f_equal. apply IH; [assumption | simpl in Hfuel; lia].
    + apply marker_free_quiet; [assumption | reflexivity].
Qed.

Lemma length_layout l : forall lead, length l <= length (layout lead l).
Proof.
  induction l as [|x l IH]; intros lead; cbn [layout length]; [lia|].
  rewrite !length_app. specialize (IH (trail x)).
  unfold span_text. rewrite length_app. simpl. lia.
Qed.

Lemma finditer_layout lead l :
  laid_out lead l = true ->
  map span_of (finditer tag_pattern (layout lead l)) = map at_span l.
Proof.
  intros H. apply scan_layout; [assumption|].
  pose proof (length_layout l lead). lia.
Qed.

(** [parse_content] on a layout of delimited spans: the dict of every
    span, numbered from 1. *)
Lemma parse_content_layout now lead l :
  laid_out lead l = true ->
  parse_content now (layout lead l)
  = map (fun ix => entry_of now (fst ix) (at_span (snd ix))) (Py.enumerate l).
Proof.
  intros H. rewrite parse_content_eq.
  transitivity (map (fun ix => entry_of now (fst ix) (snd ix))
                    (Py.enumerate
                       (map span_of (finditer tag_pattern (layout lead l))))).
  - rewrite enumerate_map, map_map. reflexivity.
  - rewrite (finditer_layout _ _ H), enumerate_map, map_map. reflexivity.
Qed.

(** A text with a match contains a well-formed span. *)
Lemma search_has_span text m :
  search tag_pattern text = Some m -> has_span text.
Proof.
  intros H. destruct (search_sound _ _ _ H) as [-> He].
  apply exec_tag_sound in He as (sp & Hwf & _ & E).
  exists (skipped m), sp, (after m). split; [assumption|].
  now rewrite E.
Qed.

Lemma parse_content_no_span now text :
  ~ has_span text -> parse_content now text = [].
Proof.
  intros Hno. rewrite parse_content_eq. unfold finditer. cbn [scan].
  destruct (search tag_pattern text) as [m|] eqn:Hs; [|reflexivity].
  exfalso. apply Hno. eapply search_has_span; eauto.
Qed.

(** The numbers of the dicts are 1, 2, ... in order. *)
Lemma parse_content_ids now text :
  map id (parse_content now text)
  = map N.of_nat (seq 1 (length (parse_content now text))).
Proof.
  rewrite parse_content_length, parse_content_eq, map_map.
  unfold Py.enumerate. generalize (finditer tag_pattern text) as l.
  intros l. generalize 0 as k.
  induction l as [|m l IH]; intros k; simpl; [reflexivity|].
  f_equal; [lia | apply IH].
Qed.


Lemma span_fits sp :
  well_formed sp = true ->
  Forall2 (fun pc run => fits (body pc) run) tag_pattern (span_pieces sp).
Proof.
  unfold well_formed. rewrite !andb_true_iff.
  intros [[[[[[Hws Htag] Htags] Hgap] Hdots] Hmsg] Hmsgs].
  apply Forall_of_forallb in Hws, Htags, Hdots, Hmsgs.
  assert (forall s : list ascii, nonempty s = true -> 1 <= length s) as Hne
      by (intros [|? ?]; simpl; [discriminate | lia]).
  unfold tag_pattern, span_pieces, units, literal.
  repeat (first [apply Forall2_app | constructor]);
    cbv [fits body lit plain group];
    try (eexists; split; [reflexivity | apply Ascii.eqb_refl]);
    auto using Nat.le_0_l.
Qed.

Lemma has_span_search text :
  has_span text <-> search tag_pattern text <> None.
Proof.
  split.
  - intros (pre & sp & post & Hwf & ->).
    apply search_complete.
    assert (span_text sp = concat (span_pieces sp)) as ->.
    { unfold span_text, span_pieces, units. cbn.
      now rewrite app_nil_r. }
    apply exec_complete. now apply span_fits.
  - destruct (search tag_pattern text) as [m|] eqn:Hs; [|congruence].
    intros _. eapply search_has_span; eauto.
Qed.

(** [parse_content] returns nothing exactly on the texts without a
    well-formed span. *)
Lemma parse_content_nil_iff now text :
  parse_content now text = [] <-> ~ has_span text.
Proof.
  rewrite has_span_search. rewrite parse_content_eq.
  unfold finditer. cbn [scan].
  destruct (search tag_pattern text) as [m|]; simpl.
  - split; [discriminate | intros H; exfalso; apply H; discriminate].
  - split; [intros _ H; now apply H | reflexivity].
Qed.

End LayoutFacts.

(* ------------------------------------------------------------------ *)
(** * Facts about the monitor *)

Module MonitorFacts.

Lemma cycle_same now text st :
  Py.strip text = last_content st ->
  monitor_cycle now (Response 200 text) st = (st, []).
Proof.
  intros H. unfold monitor_cycle. cbn [N.eqb Pos.eqb].
  destruct (text_eq_dec (Py.strip text) (last_content st)); [reflexivity|].
  contradiction.
Qed.

Lemma cycle_changed now text st :
  Py.strip text <> last_content st ->
  monitor_cycle now (Response 200 text) st
  = ({| last_content := Py.strip text;
        db := fst (save_content_to_db now (Py.strip text) (db st)) |},
     if raised (snd (save_content_to_db now (Py.strip text) (db st)))
     then printed (snd (save_content_to_db now (Py.strip text) (db st)))
          ++ [MonitorError]
     else snd (save_content_to_db now (Py.strip text) (db st))
          ++ [NewContentSaved
                (now (length (parse_content now (Py.strip text))))]).
Proof.
  intros H. unfold monitor_cycle. cbn [N.eqb Pos.eqb].
  destruct (text_eq_dec (Py.strip text) (last_content st)); [contradiction|].
  now destruct (save_content_to_db now (Py.strip text) (db st)).
Qed.

(** After a cycle that fetched a body, the cache holds the trimmed body. *)
Lemma cycle_cache now text st :
  last_content (fst (monitor_cycle now (Response 200 text) st))
  = Py.strip text.
Proof.
  destruct (text_eq_dec (Py.strip text) (last_content st)) as [E|E].
  - rewrite cycle_same by assumption. now symmetry.
  - now rewrite cycle_changed by assumption.
Qed.

End MonitorFacts.

(* ------------------------------------------------------------------ *)
(** * Facts about the store *)

Module StoreFacts.

(** The rows the loop adds carry the printed dicts of the entries. *)
Lemma save_loop_rows l : forall db,
  exists added,
    fst (save_entries l db) = db ++ added
    /\ Forall (fun r => exists e, In e l
                                  /\ PageContent.content r = str_entry e)
              added.
Proof.
  induction l as [|e l IH]; intros db; cbn [save_entries].
  - exists []. now rewrite app_nil_r.
  - destruct (query_like_first (tag_like (tag_id e)) db) as [err|[r|]].
    + exists []. now rewrite app_nil_r.
    + destruct (IH db) as (added & E & HF).
      destruct (save_entries l db) as [d o]. cbn [fst] in *.
      exists added. split; [exact E|].
      eapply Forall_impl; [|exact HF].
      intros r' (e' & Hin & Hr). exists e'. split; [now right | assumption].
    + destruct (IH (db_add e db)) as (added & E & HF).
      destruct (save_entries l (db_add e db)) as [d o]. cbn [fst] in *.
      rewrite E. unfold db_add. rewrite <- app_assoc.
      eexists. split; [reflexivity|].
      constructor; [exists e; split; [now left | reflexivity]|].
      eapply Forall_impl; [|exact HF].
      intros r' (e' & Hin & Hr). exists e'. split; [now right | assumption].
Qed.

Lemma save_rows now content db :
  exists added,
    fst (save_content_to_db now content db) = db ++ added
    /\ Forall (fun r => exists e, In e (parse_content now content)
                                  /\ PageContent.content r = str_entry e)
              added.
Proof.
  unfold save_content_to_db.
  destruct (parse_content now content) as [|e l] eqn:Hp.
  - exists []. now rewrite app_nil_r.
  - apply save_loop_rows.
Qed.

Lemma clean_exists_by_tag t db :
  clean_table db -> exists_by_tag t db = false.
Proof.
  intros H. unfold exists_by_tag.
  rewrite (DedupFacts.clean_query _ _ H). destruct db; [reflexivity|].
  now destruct (Sql.too_complex (tag_like t)).
Qed.



Lemma parse_tag42 now : parse_content now Sample.tag42 = [Sample.entry42 now].
Proof. vm_compute. reflexivity. Qed.

Lemma gap_no_newline text m :
  In m (Re.finditer tag_pattern text) ->
  ~ In Chr.newline (gap (span_of m)).
Proof.
  intros Hin Hnl.
  apply ExtractFacts.matches_well_formed in Hin as (Hwf & _).
  unfold well_formed in Hwf. rewrite !andb_true_iff in Hwf.
  destruct Hwf as [[[_ Hdots] _] _].
  rewrite forallb_forall in Hdots. now apply Hdots in Hnl.
Qed.

End StoreFacts.

(* ------------------------------------------------------------------ *)
(** * The properties of the specification *)

Import DedupFacts StoreFacts MonitorFacts.

(** C1 (as the code behaves at the failing input).  From the empty table,
    [save_content_to_db] on a body with the tag 42 stores the printed dict
    of the entry, and the duplicate check for the tag 42, like the one for
    the tag 4, then finds no row; a second body with the same tag is
    stored as a second row. *)
Theorem check_misses_stored_tag (now now' : clock) :
  let db1 := fst (save_content_to_db now Sample.tag42 []) in
  map PageContent.content db1 = [str_entry (Sample.entry42 now)]
  /\ exists_by_tag (txt "42") db1 = false
  /\ exists_by_tag (txt "4") db1 = false
  /\ length (fst (save_content_to_db now' Sample.tag42_again db1)) = 2.
Proof.
  intros db1.
  assert (clean_table db1) as Hc by (apply save_clean; constructor).
  assert (db1 = db_add (Sample.entry42 now) []) as E.
  { unfold db1, save_content_to_db. now rewrite parse_tag42. }
  split; [now rewrite E|].
  split; [now apply clean_exists_by_tag|].
  split; [now apply clean_exists_by_tag|].
  unfold save_content_to_db.
  assert (parse_content now' Sample.tag42_again
          = [{| id := 1; tag_id := txt "42"; message := txt "again";
                timestamp := now' 0 |}]) as -> by (vm_compute; reflexivity).
  cbn [save_entries].
  rewrite (clean_query_short _ _ Hc) by reflexivity.
  cbn [save_entries fst]. rewrite E. reflexivity.
Qed.

(** C2.  A second cycle that fetches the same raw text as the cycle
    before it prints nothing and leaves the state as it is: the table
    after the two cycles is the table after the first, and nothing is
    appended by the second. *)
Theorem same_text_twice_stores_once (now1 now2 : clock) text st :
  monitor_cycle now2 (Response 200 text)
                (fst (monitor_cycle now1 (Response 200 text) st))
  = (fst (monitor_cycle now1 (Response 200 text) st), [])
  /\ db (fst (monitor_page [(now1, Response 200 text);
                            (now2, Response 200 text)] st))
     = db (fst (monitor_page [(now1, Response 200 text)] st)).
Proof.
  assert (monitor_cycle now2 (Response 200 text)
                        (fst (monitor_cycle now1 (Response 200 text) st))
          = (fst (monitor_cycle now1 (Response 200 text) st), [])) as H
      by (apply cycle_same; symmetry; apply cycle_cache).
  split; [exact H|].
  cbn [monitor_page].
  destruct (monitor_cycle now1 (Response 200 text) st) as [st1 out1].
  cbn [fst] in H. rewrite H. reflexivity.
Qed.

(** C3.  Every row [save_content_to_db] adds holds the printed dict of an
    entry of [parse_content]; no such text contains [TAG ID: ] followed by
    a tag, whatever the tag, nor is it matched by the pattern of the
    duplicate check; so the check finds nothing in a table filled by
    [save_content_to_db]. *)
Theorem stored_text_never_matches_check now content db0 :
  (exists added,
      fst (save_content_to_db now content db0) = db0 ++ added
      /\ Forall (fun r => exists e, In e (parse_content now content)
                                    /\ PageContent.content r = str_entry e)
                added)
  /\ Forall (fun e => forall t,
                 Sub.contains (txt "TAG ID: " ++ t) (str_entry e) = false
                 /\ Sql.like (tag_like t) (str_entry e) = false)
            (parse_content now content)
  /\ (forall calls t, exists_by_tag t (stored calls) = false).
Proof.
  split; [apply save_rows|]. split.
  - apply Forall_forall. intros e He t.
    pose proof (parsed_clean _ _ _ He) as Hc.
    split; [now apply clean_contains | now apply clean_like].
  - intros calls t. apply clean_exists_by_tag, stored_clean.
Qed.


(** C5 (as stated): on two markers before one separator the extractor
    does not return a single record with the tag b. *)
Lemma two_markers_not_b :
  ~ (exists e, parse_content Sample.now Sample.two_markers = [e]
               /\ tag_id e = txt "b").
Proof.
  intros (e & He & Ht). vm_compute in He. injection He as <-.
  vm_compute in Ht. discriminate Ht.
Qed.

(** C5 (amended).  On two markers before one separator the extractor
    returns one record, with the tag of the first marker: the search
    starts at the leftmost marker and the lazy gap runs over the second
    marker up to the separator. *)
Theorem two_markers_leftmost now :
  parse_content now Sample.two_markers
  = [{| id := 1; tag_id := txt "a"; message := txt "msg";
        timestamp := now 0 |}].
Proof. vm_compute. reflexivity. Qed.

(** C6 (as stated): the message of the record is not [hello world]. *)
Lemma two_lines_not_first_line :
  ~ (exists e, parse_content Sample.now Sample.two_lines = [e]
               /\ id e = 1%N /\ tag_id e = txt "abc123"
               /\ message e = txt "hello world").
Proof.
  intros (e & He & _ & _ & Hm). vm_compute in He. injection He as <-.
  vm_compute in Hm. discriminate Hm.
Qed.

(** C6 (amended).  The extractor returns one record with number 1 and
    tag abc123; its message is the whole run of word and white-space
    characters after the separator, over the line feed:
    [hello world], the line feed, [more]. *)
Theorem two_lines_message now :
  parse_content now Sample.two_lines
  = [{| id := 1; tag_id := txt "abc123";
        message := txt "hello world" ++ Chr.newline :: txt "more";
        timestamp := now 0 |}].
Proof. vm_compute. reflexivity. Qed.

(** C7 (as stated): no text has a match, hence a record, whose gap
    between the token and the separator holds a line feed. *)
Lemma no_gap_over_lines :
  ~ (exists text m, In m (Re.finditer tag_pattern text)
                    /\ In Chr.newline (gap (span_of m))).
Proof. intros (text & m & Hin & Hnl). exact (gap_no_newline _ _ Hin Hnl). Qed.

(** C7 (amended).  The records are the matches in order; every match is
    the marker, white space, the token, the gap, four hyphens and the
    message run, and its gap holds no line feed.  A line feed after the
    token loses the record; a line feed between marker and token does
    not. *)
Theorem gap_stays_on_one_line now text :
  parse_content now text
  = map (fun im => entry_of now (fst im) (span_of (snd im)))
        (Py.enumerate (Re.finditer tag_pattern text))
  /\ Forall (fun m => Re.matched m = span_text (span_of m)
                      /\ ~ In Chr.newline (gap (span_of m)))
            (Re.finditer tag_pattern text)
  /\ parse_content now Sample.broken_gap = []
  /\ map tag_id (parse_content now Sample.broken_marker) = [txt "abc"].
Proof.
  split; [apply ExtractFacts.parse_content_eq|]. split.
  - apply Forall_forall. intros m Hin. split.
    + now apply ExtractFacts.matches_well_formed in Hin.
    + now apply gap_no_newline with text.
  - split; vm_compute; reflexivity.
Qed.

(** C8 (as stated): a body that differs from the cached one by a space
    at its end is not parsed and the cache does not take it. *)
Lemma padded_body_is_no_change :
  Sample.body <> Sample.body_padded
  /\ monitor_cycle Sample.now (Response 200 Sample.body_padded)
       (fst (monitor_cycle Sample.now (Response 200 Sample.body) (initial [])))
     = (fst (monitor_cycle Sample.now (Response 200 Sample.body) (initial [])),
        [])
  /\ last_content
       (fst (monitor_cycle Sample.now (Response 200 Sample.body) (initial [])))
     <> Sample.body_padded.
Proof.
  split; [|split].
  - vm_compute. intros H. discriminate H.
  - vm_compute. reflexivity.
  - vm_compute. intros H. discriminate H.
Qed.

(** C8 (amended).  The change test compares the trimmed body with the
    cache, which holds the trimmed body of the last change.  When they
    are equal the cycle prints nothing and keeps the state; when they
    differ the cache takes the trimmed body and [save_content_to_db] runs
    on it, followed by the line [New content saved], or by the line
    [Error monitoring page] when the call raised.  So a body equal to the
    one of the cycle before is skipped, and so is one that differs from it
    only by white space at its ends. *)
Theorem change_test_on_trimmed_body now text st :
  (Py.strip text = last_content st ->
   monitor_cycle now (Response 200 text) st = (st, []))
  /\ (Py.strip text <> last_content st ->
      monitor_cycle now (Response 200 text) st
      = ({| last_content := Py.strip text;
            db := fst (save_content_to_db now (Py.strip text) (db st)) |},
         if raised (snd (save_content_to_db now (Py.strip text) (db st)))
         then printed (snd (save_content_to_db now (Py.strip text) (db st)))
              ++ [MonitorError]
         else snd (save_content_to_db now (Py.strip text) (db st))
              ++ [NewContentSaved
                    (now (length (parse_content now (Py.strip text))))]))
  /\ (forall now' text',
         Py.strip text' = Py.strip text ->
         monitor_cycle now' (Response 200 text')
                       (fst (monitor_cycle now (Response 200 text) st))
         = (fst (monitor_cycle now (Response 200 text) st), [])).
Proof.
  split; [apply cycle_same|]. split; [apply cycle_changed|].
  intros now' text' E. apply cycle_same. rewrite E. symmetry.
  apply cycle_cache.
Qed.

(** The change test at a body with a space after it: skipped when the
    cache holds the body, run on the trimmed body from the initial
    state. *)
Lemma change_test_on_trimmed_body_witness :
  monitor_cycle Sample.now (Response 200 Sample.body_padded)
    {| last_content := Sample.body; db := [] |}
  = ({| last_content := Sample.body; db := [] |}, [])
  /\ fst (monitor_cycle Sample.now (Response 200 Sample.body_padded)
            (initial []))
     = {| last_content := Sample.body;
          db := fst (save_content_to_db Sample.now Sample.body []) |}.
Proof.
  split.
  - apply (proj1 (change_test_on_trimmed_body Sample.now Sample.body_padded
                    {| last_content := Sample.body; db := [] |})).
    vm_compute. reflexivity.
  - rewrite (proj1 (proj2 (change_test_on_trimmed_body
                             Sample.now Sample.body_padded (initial [])))).
    + vm_compute. reflexivity.
    + vm_compute. intros H. discriminate H.
Defined.

(** C9.  [get_saved_content] raises, with status 404 and the detail
    [No content found], exactly on the empty table; after one row is
    added to the empty table it returns one element, whose content is the
    content of the row added. *)
Theorem read_fails_exactly_on_empty_table :
  (forall db,
      get_saved_content db
      = inl {| status_code := 404; detail := txt "No content found" |}
      <-> db = [])
  /\ (forall db, (exists ex, get_saved_content db = inl ex) <-> db = [])
  /\ (forall e,
         get_saved_content (db_add e [])
         = inr [{| item_id := 1;
                   item_content := str_entry e;
                   item_timestamp := Py.isoformat (Py.naive (timestamp e)) |}])
  /\ (forall now,
         get_saved_content (fst (save_content_to_db now Sample.tag42 []))
         = inr [{| item_id := 1;
                   item_content := str_entry (Sample.entry42 now);
                   item_timestamp := Py.isoformat (Py.naive (now 0)) |}]).
Proof.
  split; [|split; [|split]].
  - intros [|r db]; simpl; split; intros H; try reflexivity; discriminate H.
  - intros [|r db]; simpl; split.
    + reflexivity.
    + intros _. eexists. reflexivity.
    + intros [ex H]. discriminate H.
    + intros H. discriminate H.
  - intros e. reflexivity.
  - intros now. unfold save_content_to_db. rewrite parse_tag42. reflexivity.
Qed.

(** C10 (as stated): a text made of two well-formed spans, one after the
    other, gives one record, not two. *)
Lemma adjacent_spans_give_one_record :
  well_formed Sample.span_a = true
  /\ well_formed Sample.span_b = true
  /\ length (parse_content Sample.now
               (span_text Sample.span_a ++ span_text Sample.span_b)) <> 2
  /\ map tag_id (parse_content Sample.now
                   (span_text Sample.span_a ++ span_text Sample.span_b))
     = [txt "a"].
Proof.
  repeat split; try (vm_compute; reflexivity).
  vm_compute. intros H. discriminate H.
Qed.

(** C10 (amended).  For a text laid out as N delimited spans (the token
    followed by white space, no hyphen and no line feed in the gap, the
    message run followed by a character that is neither a word character
    nor white space or by the end of the text, and no marker outside the
    spans) the extractor returns the N records of the spans in order, with
    their tags and trimmed messages.  For every text the numbers of the
    records are 1 to their count, and the result is empty exactly when the
    text contains no well-formed span. *)
Theorem extractor_on_delimited_spans :
  (forall now lead l,
      laid_out lead l = true ->
      parse_content now (layout lead l)
      = map (fun ix => entry_of now (fst ix) (at_span (snd ix)))
            (Py.enumerate l)
      /\ length (parse_content now (layout lead l)) = length l)
  /\ (forall now text,
         map id (parse_content now text)
         = map N.of_nat (seq 1 (length (parse_content now text))))
  /\ (forall now text, parse_content now text = [] <-> ~ has_span text).
Proof.
  split; [|split].
  - intros now lead l H.
    rewrite (LayoutFacts.parse_content_layout _ _ _ H). split; [reflexivity|].
    rewrite length_map. unfold Py.enumerate.
    rewrite length_combine, length_seq. lia.
  - apply LayoutFacts.parse_content_ids.
  - apply LayoutFacts.parse_content_nil_iff.
Qed.

(** The extractor on two spans with a semicolon between them, and on a
    marker without a separator. *)
Lemma extractor_on_delimited_spans_witness :
  laid_out (txt "noise ") Sample.two_spans = true
  /\ map tag_id (parse_content Sample.now
                   (layout (txt "noise ") Sample.two_spans))
     = [txt "1"; txt "2"]
  /\ parse_content Sample.now (txt "TAG ID: abc") = [].
Proof.
  split; [vm_compute; reflexivity|]. split.
  - rewrite (proj1 (proj1 extractor_on_delimited_spans
                      Sample.now (txt "noise ") Sample.two_spans eq_refl)).
    vm_compute. reflexivity.
  - apply (proj2 (proj2 extractor_on_delimited_spans) Sample.now).
    rewrite LayoutFacts.has_span_search. vm_compute. intros H. now apply H.
Defined.

(* ------------------------------------------------------------------ *)
(** * More facts about trimming, the scan and the table *)

Module MoreFacts.
Import Re ReFacts ExtractFacts.

(** ** Trimming *)

Lemma lstrip_starts_black s : starts_black (Py.lstrip s).
Proof.
  induction s as [|c s IH]; simpl; [exact I|].
  destruct (Chr.is_space c) eqn:E; [exact IH | exact E].
Qed.

Lemma lstrip_black s : starts_black s -> Py.lstrip s = s.
Proof. destruct s as [|c s]; simpl; [reflexivity|]. now intros ->. Qed.

Lemma lstrip_suffix s :
  exists sp, s = sp ++ Py.lstrip s
             /\ Forall (fun c => Chr.is_space c = true) sp.
Proof.
  induction s as [|c s (sp & E & Hsp)]; simpl.
  - exists []; auto.
  - destruct (Chr.is_space c) eqn:Hc.
    + exists (c :: sp). split; [simpl; now f_equal | now constructor].
    + exists []; auto.
Qed.

Lemma rstrip_prefix s :
  exists sp, s = Py.rstrip s ++ sp
             /\ Forall (fun c => Chr.is_space c = true) sp.
Proof.
  unfold Py.rstrip. destruct (lstrip_suffix (rev s)) as (sp & E & Hsp).
  exists (rev sp). split.
  - rewrite <- rev_app_distr, <- E. now rewrite rev_involutive.
  - now apply Forall_rev.
Qed.

Lemma rstrip_ends_black s : starts_black (rev (Py.rstrip s)).
Proof. unfold Py.rstrip. rewrite rev_involutive. apply lstrip_starts_black. Qed.

Lemma rstrip_black s : starts_black (rev s) -> Py.rstrip s = s.
Proof.
  intros H. unfold Py.rstrip. rewrite (lstrip_black _ H).
  apply rev_involutive.
Qed.

Lemma rstrip_starts_black s : starts_black s -> starts_black (Py.rstrip s).
Proof.
  intros H. destruct (rstrip_prefix s) as (sp & E & _).
  destruct (Py.rstrip s) as [|c r]; [exact I|].
  rewrite E in H. exact H.
Qed.

Lemma strip_starts_black s : starts_black (Py.strip s).
Proof. apply rstrip_starts_black, lstrip_starts_black. Qed.

Lemma strip_ends_black s : starts_black (rev (Py.strip s)).
Proof. apply rstrip_ends_black. Qed.

Lemma strip_strip s : Py.strip (Py.strip s) = Py.strip s.
Proof.
  unfold Py.strip at 1.
  rewrite (lstrip_black _ (strip_starts_black s)).
  apply rstrip_black, strip_ends_black.
Qed.

Lemma lstrip_spaces s :
  forallb Chr.is_space s = true -> Py.lstrip s = [].
Proof.
  induction s as [|c s IH]; simpl; [reflexivity|].
  intros H. apply andb_true_iff in H as [-> Hs]. auto.
Qed.

Lemma strip_spaces s : forallb Chr.is_space s = true -> Py.strip s = [].
Proof. intros H. unfold Py.strip. now rewrite (lstrip_spaces _ H). Qed.

Lemma forallb_strip f s :
  forallb f s = true -> forallb f (Py.strip s) = true.
Proof.
  rewrite !forallb_forall. intros H c Hc.
  apply H. now apply DedupFacts.in_strip.
Qed.

(** ** The scan *)

(** With rounds to spare, the scan splits the text into the matches, what
    it skipped before each, and a rest without a match. *)
Lemma scan_partition p : starts_single p -> forall n s,
  length s < n ->
  exists tail, s = rebuild (scan n p s) tail /\ search p tail = None.
Proof.
  intros Hp. induction n as [|n IH]; intros s Hn; [lia|]. cbn [scan].
  destruct (search p s) as [m|] eqn:Hs.
  - pose proof (search_shrinks _ _ _ Hp Hs) as Hlt.
    destruct (IH (after m)) as (tail & E & Ht); [lia|].
    exists tail. split; [|exact Ht]. cbn [rebuild]. rewrite <- E.
    apply (search_sound _ _ _ Hs).
  - exists s. split; [reflexivity | exact Hs].
Qed.

Lemma length_rebuild ms : forall tail,
  length (rebuild ms tail)
  = list_sum (map (fun m => length (skipped m) + length (matched m)) ms)
    + length tail.
Proof.
  induction ms as [|m ms IH]; intros tail; [reflexivity|].
  cbn [rebuild map]. rewrite !length_app, IH.
  change (list_sum (?a :: ?l)) with (a + list_sum l). lia.
Qed.

Lemma well_formed_length sp :
  well_formed sp = true -> 14 <= length (span_text sp).
Proof.
  unfold well_formed. rewrite !andb_true_iff.
  intros [[[[[[_ Htag] _] Hgap] _] Hmsg] _].
  unfold span_text. rewrite !length_app.
  destruct (tag sp); [discriminate|]. destruct (gap sp); [discriminate|].
  destruct (msg sp); [discriminate|]. simpl. lia.
Qed.

Lemma matches_lengths text :
  14 * length (finditer tag_pattern text)
  <= list_sum (map (fun m => length (skipped m) + length (matched m))
                   (finditer tag_pattern text)).
Proof.
  assert (forall ms,
             Forall (fun m => 14 <= length (matched m)) ms ->
             14 * length ms
             <= list_sum (map (fun m => length (skipped m)
                                        + length (matched m)) ms)) as H.
  { induction 1 as [|m ms Hm _ IH]; simpl; lia. }
  apply H, Forall_forall. intros m Hin.
  apply matches_well_formed in Hin as (Hwf & _ & ->).
  now apply well_formed_length.
Qed.

(** ** The pattern of the check *)

Lemma like_any s : Sql.pattern_compare (txt "%") s = true.
Proof.
  induction s as [|c s IH].
  - reflexivity.
  - change (txt "%") with ("%"%char :: []) in *.
    rewrite DedupFacts.like_percent, IH. apply orb_true_r.
Qed.

Lemma like_skip P a : forall s,
  Sql.pattern_compare ("%"%char :: P) s = true ->
  Sql.pattern_compare ("%"%char :: P) (a ++ s) = true.
Proof.
  induction a as [|c a IH]; intros s H; [exact H|].
  cbn [app]. rewrite DedupFacts.like_percent, (IH _ H). apply orb_true_r.
Qed.

Lemma like_cons p P c s :
  Ascii.eqb p "%" = false ->
  Sql.pattern_compare (p :: P) (c :: s)
  = (Ascii.eqb p "_" || Ascii.eqb (Chr.lower p) (Chr.lower c))
    && Sql.pattern_compare P s.
Proof. intros H. cbn [Sql.pattern_compare]. now rewrite H. Qed.

(** A text taken as a pattern matches itself, wildcards or not. *)
Lemma like_self t : forall Q s,
  Sql.pattern_compare Q s = true ->
  Sql.pattern_compare (t ++ Q) (t ++ s) = true.
Proof.
  induction t as [|c t IH]; intros Q s H; [exact H|]. cbn [app].
  destruct (Ascii.eqb c "%") eqn:E.
  - apply Ascii.eqb_eq in E. subst c.
    rewrite DedupFacts.like_percent.
    apply orb_true_iff. right.
    rewrite DedupFacts.like_percent, (IH _ _ H). reflexivity.
  - rewrite (like_cons _ _ _ _ E), Ascii.eqb_refl, orb_true_r.
    apply (IH _ _ H).
Qed.

Lemma prefix_split P : forall s,
  Sub.prefix P s = true -> exists s', s = P ++ s'.
Proof.
  induction P as [|c P IH]; intros s H; [now exists s|].
  apply DedupFacts.prefix_cons in H as (s' & -> & H).
  destruct (IH _ H) as (s'' & ->). now exists s''.
Qed.

(** A text without NUL is its own C string, whatever follows it. *)
Lemma cstr_app t : forall u,
  Sql.cstr t = t -> Sql.cstr (t ++ u) = t ++ Sql.cstr u.
Proof.
  induction t as [|c t IH]; intros u H; [reflexivity|].
  cbn [Sql.cstr app] in *. destruct (Chr.has_code 0 c); [discriminate H|].
  injection H as H. now rewrite (IH _ H).
Qed.

(** The pattern matching accepts every text that contains the marker and
    the tag. *)
Lemma contains_compare t s :
  Sub.contains (txt "TAG ID: " ++ t) s = true ->
  Sql.pattern_compare (tag_like t) s = true.
Proof.
  intros H. apply DedupFacts.contains_split in H as (a & b & -> & H).
  apply prefix_split in H as (b' & ->).
  unfold tag_like. change (txt "%TAG ID: ") with ("%"%char :: txt "TAG ID: ").
  cbn [app]. apply like_skip.
  rewrite DedupFacts.like_percent. apply orb_true_iff. left.
  rewrite app_assoc. apply like_self, like_any.
Qed.

(** [LIKE] accepts a tag without NUL on every text whose C string
    contains the marker and the tag. *)
Lemma contains_like t s :
  Sql.cstr t = t ->
  Sub.contains (txt "TAG ID: " ++ t) (Sql.cstr s) = true ->
  Sql.like (tag_like t) s = true.
Proof.
  intros Ht H. unfold Sql.like.
  rewrite DedupFacts.cstr_tag_like, (cstr_app _ _ Ht).
  now apply contains_compare.
Qed.

Lemma find_app_some {A} (f : A -> bool) l l' x :
  find f l = Some x -> find f (l ++ l') = Some x.
Proof.
  induction l as [|y l IH]; simpl; [discriminate|].
  destruct (f y); auto.
Qed.

Lemma exists_by_tag_in t db r :
  short_tag t = true ->
  In r db -> Sql.like (tag_like t) (PageContent.content r) = true ->
  exists_by_tag t db = true.
Proof.
  intros Hs Hin Hr. unfold exists_by_tag, query_like_first.
  unfold short_tag in Hs. apply negb_true_iff in Hs. rewrite Hs.
  destruct db as [|r0 db]; [contradiction|].
  destruct (find _ (r0 :: db)) eqn:E; [reflexivity|].
  rewrite (find_none _ _ E _ Hin) in Hr. discriminate.
Qed.

Lemma exists_by_tag_app t db added :
  exists_by_tag t db = true -> exists_by_tag t (db ++ added) = true.
Proof.
  unfold exists_by_tag, query_like_first.
  destruct db as [|r db]; [discriminate|]. cbn [app].
  destruct (Sql.too_complex (tag_like t)); [discriminate|].
  change (r :: db ++ added) with ((r :: db) ++ added).
  destruct (find _ (r :: db)) eqn:E; [|discriminate].
  now rewrite (find_app_some _ _ _ _ E).
Qed.

(** ** The loop of [save_content_to_db] *)

(** What adding a row keeps, the loop, the call, the cycle and the run
    keep. *)
Lemma save_loop_preserves (P : table -> Prop) l :
  (forall e db, In e l -> P db -> P (db_add e db)) ->
  forall db, P db -> P (fst (save_entries l db)).
Proof.
  induction l as [|e l IH]; intros Hadd db Hdb; [exact Hdb|].
  cbn [save_entries].
  destruct (query_like_first (tag_like (tag_id e)) db) as [err|[r|]].
  - exact Hdb.
  - assert (P (fst (save_entries l db))) as H
        by (apply IH; auto using in_cons).
    now destruct (save_entries l db).
  - assert (P (fst (save_entries l (db_add e db)))) as H
        by (apply IH; auto using in_cons, in_eq).
    now destruct (save_entries l (db_add e db)).
Qed.

Lemma save_preserves (P : table -> Prop) now content :
  (forall e db, In e (parse_content now content) -> P db -> P (db_add e db)) ->
  forall db, P db -> P (fst (save_content_to_db now content db)).
Proof.
  intros Hadd db Hdb. unfold save_content_to_db.
  destruct (parse_content now content) as [|e l] eqn:Hp; [exact Hdb|].
  now apply save_loop_preserves.
Qed.

Lemma cycle_preserves (P : table -> Prop) :
  (forall e db, (exists now text, In e (parse_content now text)) ->
                P db -> P (db_add e db)) ->
  forall now r st, P (db st) -> P (db (fst (monitor_cycle now r st))).
Proof.
  intros Hadd now [|code text] st Hst; [exact Hst|]. unfold monitor_cycle.
  destruct (code =? 200)%N; [|exact Hst].
  destruct (text_eq_dec _ _); [exact Hst|].
  assert (P (fst (save_content_to_db now (Py.strip text) (db st)))) as H.
  { apply save_preserves; [|exact Hst]. intros e d He. apply Hadd. eauto. }
  destruct (save_content_to_db now (Py.strip text) (db st)) as [db' out].
  exact H.
Qed.

Lemma monitor_page_cons now r cycles st :
  fst (monitor_page ((now, r) :: cycles) st)
  = fst (monitor_page cycles (fst (monitor_cycle now r st))).
Proof.
  cbn [monitor_page]. destruct (monitor_cycle now r st) as [st' out].
  cbn [fst]. now destruct (monitor_page cycles st').
Qed.

Lemma monitor_preserves (P : table -> Prop) :
  (forall e db, (exists now text, In e (parse_content now text)) ->
                P db -> P (db_add e db)) ->
  forall cycles st, P (db st) -> P (db (fst (monitor_page cycles st))).
Proof.
  intros Hadd. induction cycles as [|[now r] cycles IH]; intros st Hst;
    [exact Hst|].
  rewrite monitor_page_cons. apply IH. now apply cycle_preserves.
Qed.

Lemma reached_clean cycles : clean_table (db (reached cycles)).
Proof.
  unfold reached. apply (monitor_preserves clean_table); [|constructor].
  intros e d (now & text & He) Hd.
  apply DedupFacts.clean_db_add; [|exact Hd].
  eapply DedupFacts.parsed_clean; eauto.
Qed.

(** What the loop prints and what it adds. *)
Lemma count_saved_app a b :
  count_saved (a ++ b) = count_saved a + count_saved b.
Proof. unfold count_saved. now rewrite filter_app, length_app. Qed.

Lemma count_saved_cons o out :
  count_saved (o :: out)
  = (match o with Saved _ => 1 | _ => 0 end) + count_saved out.
Proof. unfold count_saved. now destruct o. Qed.

Lemma save_loop_account l : forall db,
  length (fst (save_entries l db))
  = length db + count_saved (snd (save_entries l db))
  /\ length (snd (save_entries l db)) <= length l
  /\ (raised (snd (save_entries l db)) = false ->
      length (snd (save_entries l db)) = length l)
  /\ ~ In NoValidEntries (snd (save_entries l db)).
Proof.
  induction l as [|e l IH]; intros db; cbn [save_entries].
  - cbn. repeat split; auto.
  - destruct (query_like_first (tag_like (tag_id e)) db) as [err|[r|]].
    + cbn [fst snd length]. rewrite count_saved_cons.
      split; [unfold count_saved; simpl; lia|]. split; [lia|].
      split; [intros H; cbn in H; discriminate H|].
      intros [H|[]]; discriminate H.
    + destruct (IH db) as (Hrows & Hle & Hlen & Hno).
      destruct (save_entries l db) as [d o]. cbn [fst snd length] in *.
      rewrite count_saved_cons.
      split; [exact Hrows|]. split; [lia|]. split.
      * intros Hr. rewrite Hlen; [reflexivity | exact Hr].
      * intros [H|H]; [discriminate H | contradiction].
    + destruct (IH (db_add e db)) as (Hrows & Hle & Hlen & Hno).
      destruct (save_entries l (db_add e db)) as [d o].
      cbn [fst snd length] in *. rewrite count_saved_cons.
      split; [|split; [lia|split]].
      * rewrite Hrows. unfold db_add. rewrite length_app. simpl. lia.
      * intros Hr. rewrite Hlen; [reflexivity | exact Hr].
      * intros [H|H]; [discriminate H | contradiction].
Qed.

(** On a clean table the loop prints no [already exists]. *)
Lemma save_entries_no_skip l : forall db t,
  Forall (fun e => clean (str_entry e)) l -> clean_table db ->
  ~ In (AlreadyExists t) (snd (save_entries l db)).
Proof.
  induction l as [|e l IH]; intros db t Hl Hdb; [intros []|].
  inversion Hl as [|? ? He Hl']; subst. cbn [save_entries].
  rewrite (DedupFacts.clean_query _ _ Hdb).
  assert (~ In (AlreadyExists t)
            (snd (let '(db', out) := save_entries l (db_add e db) in
                  (db', Saved (tag_id e) :: out)))) as Hadd.
  { specialize (IH (db_add e db) t Hl'
                   (DedupFacts.clean_db_add _ _ He Hdb)).
    destruct (save_entries l (db_add e db)) as [d o]. cbn [snd] in *.
    intros [H|H]; [discriminate H | contradiction]. }
  destruct db as [|r db]; [exact Hadd|].
  destruct (Sql.too_complex (tag_like (tag_id e))); [|exact Hadd].
  intros [H|[]]. discriminate H.
Qed.

(** On a clean table the loop adds every entry, unless it raises. *)
Lemma save_entries_unraised l : forall db,
  Forall (fun e => clean (str_entry e)) l -> clean_table db ->
  raised (snd (save_entries l db)) = false ->
  save_entries l db
  = (fold_left (fun d e => db_add e d) l db,
     map (fun e => Saved (tag_id e)) l).
Proof.
  induction l as [|e l IH]; intros db Hl Hdb Hr; [reflexivity|].
  inversion Hl as [|? ? He Hl']; subst.
  cbn [save_entries fold_left map] in *.
  rewrite (DedupFacts.clean_query _ _ Hdb) in *.
  assert (raised (snd (let '(db', out) := save_entries l (db_add e db) in
                       (db', Saved (tag_id e) :: out))) = false ->
          (let '(db', out) := save_entries l (db_add e db) in
           (db', Saved (tag_id e) :: out))
          = (fold_left (fun d e0 => db_add e0 d) l (db_add e db),
             Saved (tag_id e) :: map (fun e0 => Saved (tag_id e0)) l)) as Hadd.
  { specialize (IH (db_add e db) Hl' (DedupFacts.clean_db_add _ _ He Hdb)).
    destruct (save_entries l (db_add e db)) as [d o]. cbn [snd] in *.
    intros H. cbn in H. injection (IH H) as -> ->. reflexivity. }
  destruct db as [|r db]; [now apply Hadd|].
  destruct (Sql.too_complex (tag_like (tag_id e))); [discriminate Hr|].
  now apply Hadd.
Qed.

Lemma length_fold_add l : forall db,
  length (fold_left (fun d e => db_add e d) l db) = length db + length l.
Proof.
  induction l as [|e l IH]; intros db; simpl; [lia|].
  rewrite IH. unfold db_add. rewrite length_app. simpl. lia.
Qed.

(** ** The row numbers *)

Lemma max_ids_from n : forall k,
  fold_right N.max 0%N (map N.of_nat (seq (S k) n))
  = match n with 0 => 0%N | S _ => N.of_nat (k + n) end.
Proof.
  induction n as [|n IH]; intros k; [reflexivity|].
  cbn [seq map fold_right]. rewrite IH. destruct n; lia.
Qed.

Lemma next_first_ids db :
  map PageContent.id db = first_ids (length db) ->
  next_id db = N.of_nat (S (length db)).
Proof.
  intros H. unfold next_id. rewrite H. unfold first_ids.
  rewrite max_ids_from. destruct (length db); lia.
Qed.

Lemma db_add_ids e db :
  map PageContent.id db = first_ids (length db) ->
  map PageContent.id (db_add e db) = first_ids (length (db_add e db)).
Proof.
  intros H. unfold db_add. rewrite map_app, length_app, H.
  cbn [map length PageContent.id]. rewrite (next_first_ids _ H).
  unfold first_ids. rewrite Nat.add_1_r, seq_S, map_app. reflexivity.
Qed.

Lemma first_ids_nodup n : NoDup (first_ids n).
Proof.
  unfold first_ids. apply Finite.Injective_map_NoDup; [|apply seq_NoDup].
  intros a b H. lia.
Qed.

(** ** Runs *)

(** A run only appends rows, each the printed dict of a parsed entry. *)
Lemma monitor_grows cycles st :
  exists added,
    db (fst (monitor_page cycles st)) = db st ++ added
    /\ Forall (fun r => exists now text e,
                   In e (parse_content now text)
                   /\ PageContent.content r = str_entry e
                   /\ PageContent.timestamp r = Py.naive (timestamp e))
              added.
Proof.
  apply (monitor_preserves
           (fun d => exists added,
                d = db st ++ added
                /\ Forall (fun r => exists now text e,
                               In e (parse_content now text)
                               /\ PageContent.content r = str_entry e
                               /\ PageContent.timestamp r
                                  = Py.naive (timestamp e))
                          added)).
  - intros e d (now & text & He) (added & -> & HF).
    unfold db_add. rewrite <- app_assoc. eexists. split; [reflexivity|].
    apply Forall_app. split; [exact HF|].
    constructor; [|constructor]. exists now, text, e. auto.
  - exists []. now rewrite app_nil_r.
Qed.

Lemma stored_preserves (P : table -> Prop) :
  (forall e db, P db -> P (db_add e db)) ->
  forall calls db,
    P db ->
    P (fold_left (fun db c => fst (save_content_to_db (fst c) (snd c) db))
                 calls db).
Proof.
  intros Hadd. induction calls as [|[now text] calls IH]; intros db Hdb;
    [exact Hdb|].
  cbn [fold_left]. apply IH. apply save_preserves; auto.
Qed.

Lemma errored_app a b : errored (a ++ b) = errored a || errored b.
Proof. apply existsb_app. Qed.

Lemma monitor_page_out now r cycles st :
  snd (monitor_page ((now, r) :: cycles) st)
  = snd (monitor_cycle now r st)
    ++ snd (monitor_page cycles (fst (monitor_cycle now r st))).
Proof.
  cbn [monitor_page]. destruct (monitor_cycle now r st) as [st' out].
  cbn [fst snd]. now destruct (monitor_page cycles st').
Qed.

(** A changed body on a clean table adds one row for every match,
    unless the cycle prints the error line. *)
Lemma cycle_changed_rows now text st :
  clean_table (db st) -> Py.strip text <> last_content st ->
  errored (snd (monitor_cycle now (Response 200 text) st)) = false ->
  length (db (fst (monitor_cycle now (Response 200 text) st)))
  = length (db st) + matches_in text
  /\ last_content (fst (monitor_cycle now (Response 200 text) st))
     = Py.strip text
  /\ clean_table (db (fst (monitor_cycle now (Response 200 text) st))).
Proof.
  intros Hc Hne. rewrite (MonitorFacts.cycle_changed _ _ _ Hne).
  cbn [fst snd db last_content]. intros He.
  split; [|split; [reflexivity | now apply DedupFacts.save_clean]].
  destruct (raised (snd (save_content_to_db now (Py.strip text) (db st))))
    eqn:Hr.
  { rewrite errored_app in He. cbn in He.
    rewrite orb_true_r in He. discriminate He. }
  revert Hr. unfold save_content_to_db, matches_in.
  rewrite <- (parse_content_length now).
  assert (Forall (fun e => clean (str_entry e))
                 (parse_content now (Py.strip text))) as Hl
      by (apply Forall_forall; intros e; apply DedupFacts.parsed_clean).
  destruct (parse_content now (Py.strip text)) as [|e l]; [simpl; lia|].
  intros Hr. rewrite (save_entries_unraised (e :: l) (db st) Hl Hc Hr).
  cbn [fst]. apply length_fold_add.
Qed.

Lemma skip_loop l : forall db,
  Forall (fun e => exists_by_tag (tag_id e) db = true) l ->
  save_entries l db = (db, map (fun e => AlreadyExists (tag_id e)) l).
Proof.
  induction l as [|e l IH]; intros db Hl; [reflexivity|].
  inversion Hl as [|? ? He Hl']; subst. cbn [save_entries map].
  unfold exists_by_tag in He.
  destruct (query_like_first (tag_like (tag_id e)) db) as [err|[r|]];
    try discriminate.
  now rewrite (IH _ Hl').
Qed.

(** ** Leftmost matches *)

Lemma search_leftmost p : forall s m,
  search p s = Some m ->
  forall a b, skipped m = a ++ b -> b <> [] ->
              exec p (b ++ matched m ++ after m) = None.
Proof.
  induction s as [|c s IH]; intros m; cbn [search].
  - destruct (exec p []) as [[segs rest]|]; [|discriminate].
    intros H; injection H as <-. intros [|? ?] b E Hb; [|discriminate E].
    cbn in E. now subst b.
  - destruct (exec p (c :: s)) as [[segs rest]|] eqn:He.
    + intros H; injection H as <-. intros [|? ?] b E Hb; [|discriminate E].
      cbn in E. now subst b.
    + destruct (search p s) as [m'|] eqn:Hs; [|discriminate].
      cbn [option_map]. intros H; injection H as <-.
      unfold skip, matched. cbn [skipped pieces after].
      intros a b E Hb. destruct a as [|d a].
      * cbn in E. subst b. cbn [app].
        destruct (search_sound _ _ _ Hs) as [Es _].
        unfold matched in Es. now rewrite <- Es.
      * injection E as _ E. now apply (IH m' eq_refl a b).
Qed.

Lemma scan_leftmost p n : forall s m,
  In m (scan n p s) ->
  forall a b, skipped m = a ++ b -> b <> [] ->
              exec p (b ++ matched m ++ after m) = None.
Proof.
  induction n as [|n IH]; intros s m; cbn [scan]; [intros []|].
  destruct (search p s) as [m'|] eqn:Hs; [|intros []].
  intros [<-|Hin]; [now apply (search_leftmost _ _ _ Hs) | now apply (IH _ _ Hin)].
Qed.

(** ** Letters and the check *)

Lemma lower_lower c : Chr.lower (Chr.lower c) = Chr.lower c.
Proof. destruct c as [[] [] [] [] [] [] [] []]; reflexivity. Qed.

Lemma lower_percent c : Ascii.eqb (Chr.lower c) "%" = Ascii.eqb c "%".
Proof. destruct c as [[] [] [] [] [] [] [] []]; reflexivity. Qed.

Lemma lower_underscore c : Ascii.eqb (Chr.lower c) "_" = Ascii.eqb c "_".
Proof. destruct c as [[] [] [] [] [] [] [] []]; reflexivity. Qed.

(** [LIKE] does not see the case of ASCII letters, in the pattern or in
    the text. *)
Lemma lower_nul c : Chr.has_code 0 (Chr.lower c) = Chr.has_code 0 c.
Proof. destruct c as [[] [] [] [] [] [] [] []]; reflexivity. Qed.

Lemma lower_ascii c :
  (Chr.code (Chr.lower c) <? 128)%N = (Chr.code c <? 128)%N.
Proof. destruct c as [[] [] [] [] [] [] [] []]; reflexivity. Qed.

(** The pattern matching does not see the case of ASCII letters, in the
    pattern or in the text. *)
Lemma compare_lower pat : forall s,
  Sql.pattern_compare (map Chr.lower pat) (map Chr.lower s)
  = Sql.pattern_compare pat s.
Proof.
  induction pat as [|p pat IH]; intros s.
  - destruct s; reflexivity.
  - cbn [map]. destruct (Ascii.eqb p "%") eqn:E.
    + apply Ascii.eqb_eq in E. subst p.
      change (Chr.lower "%") with "%"%char.
      induction s as [|c s IHs].
      * cbn [map]. rewrite !DedupFacts.like_percent, <- (IH []).
        reflexivity.
      * cbn [map]. rewrite (DedupFacts.like_percent _ (_ :: _)).
        rewrite (DedupFacts.like_percent pat (c :: s)).
        rewrite IHs. f_equal. apply (IH (c :: s)).
    + destruct s as [|c s].
      * cbn [map Sql.pattern_compare]. now rewrite lower_percent, E.
      * cbn [map]. rewrite !like_cons by (now rewrite ?lower_percent).
        now rewrite lower_underscore, !lower_lower, IH.
Qed.

Lemma cstr_lower s : Sql.cstr (map Chr.lower s) = map Chr.lower (Sql.cstr s).
Proof.
  induction s as [|c s IH]; [reflexivity|].
  cbn [map Sql.cstr]. rewrite lower_nul.
  destruct (Chr.has_code 0 c); [reflexivity|]. cbn [map]. now rewrite IH.
Qed.

Lemma utf8_lower s : Sql.utf8_bytes (map Chr.lower s) = Sql.utf8_bytes s.
Proof.
  induction s as [|c s IH]; [reflexivity|].
  cbn [map Sql.utf8_bytes fold_right].
  fold (Sql.utf8_bytes (map Chr.lower s)). fold (Sql.utf8_bytes s).
  now rewrite lower_ascii, IH.
Qed.

Lemma tag_like_lower t :
  map Chr.lower (tag_like (map Chr.lower t)) = map Chr.lower (tag_like t).
Proof.
  unfold tag_like. rewrite !map_app, map_map.
  do 2 f_equal. apply map_ext. intros c. apply lower_lower.
Qed.

Lemma like_lower_tag t s :
  Sql.like (tag_like (map Chr.lower t)) s = Sql.like (tag_like t) s.
Proof.
  unfold Sql.like.
  rewrite <- (compare_lower (Sql.cstr (tag_like (map Chr.lower t)))).
  rewrite <- (compare_lower (Sql.cstr (tag_like t))).
  now rewrite <- !cstr_lower, tag_like_lower.
Qed.

Lemma too_complex_lower t :
  Sql.too_complex (tag_like (map Chr.lower t))
  = Sql.too_complex (tag_like t).
Proof.
  unfold Sql.too_complex.
  rewrite <- (utf8_lower (tag_like (map Chr.lower t))), tag_like_lower.
  now rewrite utf8_lower.
Qed.

Lemma reached_ids cycles :
  map PageContent.id (db (reached cycles))
  = first_ids (length (db (reached cycles))).
Proof.
  unfold reached.
  apply (monitor_preserves
           (fun d => map PageContent.id d = first_ids (length d)));
    [|reflexivity].
  intros e d _. apply db_add_ids.
Qed.

End MoreFacts.

(* ------------------------------------------------------------------ *)
(** * More properties of the program *)

Import MoreFacts.

(** X1.  Cycles whose fetch raised or came back with another status than
    200 change neither the cache nor the table: a run ends in the state
    it would reach without them. *)
Theorem failed_cycles_leave_no_trace cycles : forall st,
  fst (monitor_page cycles st)
  = fst (monitor_page (filter fetched_ok cycles) st).
Proof.
  induction cycles as [|[now r] cycles IH]; intros st; [reflexivity|].
  rewrite monitor_page_cons.
  destruct r as [|code text]; cbn [filter fetched_ok snd].
  - apply IH.
  - destruct (code =? 200)%N eqn:E.
    + rewrite monitor_page_cons. apply IH.
    + unfold monitor_cycle. rewrite E. apply IH.
Qed.

(** X2.  A run of the monitor only appends to the table: the rows it
    started with stay first and unchanged, and every row after them holds
    the printed dict of an entry of [parse_content] and the time of that
    entry without its zone. *)
Theorem table_only_grows cycles st :
  exists added,
    db (fst (monitor_page cycles st)) = db st ++ added
    /\ Forall (fun r => exists now text e,
                   In e (parse_content now text)
                   /\ PageContent.content r = str_entry e
                   /\ PageContent.timestamp r = Py.naive (timestamp e))
              added.
Proof. apply monitor_grows. Qed.

(** X3.  From the empty table the rows are numbered 1, 2, ... in the
    order of insertion, after any series of calls of [save_content_to_db]
    and after any run of the monitor; no two rows share a number. *)
Theorem rows_are_numbered :
  (forall calls,
      map PageContent.id (stored calls) = first_ids (length (stored calls)))
  /\ (forall cycles,
         map PageContent.id (db (reached cycles))
         = first_ids (length (db (reached cycles))))
  /\ (forall cycles, NoDup (map PageContent.id (db (reached cycles)))).
Proof.
  split; [|split; [exact reached_ids|]].
  - intros calls. unfold stored.
    apply (stored_preserves
             (fun d => map PageContent.id d = first_ids (length d)));
      [|reflexivity].
    intros e d. apply db_add_ids.
  - intros cycles. rewrite reached_ids. apply first_ids_nodup.
Qed.

(** X4.  On the table of a run of the monitor, [save_content_to_db]
    never prints [already exists]; and unless it raises, it adds a row
    for every parsed entry, in order, and prints [saved] for each. *)
Theorem run_table_takes_every_entry cycles now content :
  (forall t,
      ~ In (AlreadyExists t)
           (snd (save_content_to_db now content (db (reached cycles)))))
  /\ (raised (snd (save_content_to_db now content (db (reached cycles))))
      = false ->
      fst (save_content_to_db now content (db (reached cycles)))
      = fold_left (fun d e => db_add e d) (parse_content now content)
                  (db (reached cycles))
      /\ snd (save_content_to_db now content (db (reached cycles)))
         = match parse_content now content with
           | [] => [NoValidEntries]
           | l => map (fun e => Saved (tag_id e)) l
           end
      /\ length (fst (save_content_to_db now content (db (reached cycles))))
         = length (db (reached cycles))
           + length (parse_content now content)).
Proof.
  assert (Forall (fun e => clean (str_entry e)) (parse_content now content))
    as Hl by (apply Forall_forall; intros e; apply DedupFacts.parsed_clean).
  unfold save_content_to_db.
  destruct (parse_content now content) as [|e l].
  - split.
    + intros t [H|[]]. discriminate H.
    + intros _. cbn [fst snd fold_left length]. repeat split. lia.
  - split.
    + intros t. apply save_entries_no_skip; [exact Hl | apply reached_clean].
    + intros Hr.
      rewrite (save_entries_unraised (e :: l) (db (reached cycles))
                 Hl (reached_clean cycles) Hr).
      cbn [fst snd]. repeat split. apply length_fold_add.
Qed.

(** The body with the tag 42 on the table of a cycle that stored the
    body with the tag 1. *)
Lemma run_table_takes_every_entry_witness :
  length (fst (save_content_to_db
                 Sample.now Sample.tag42
                 (db (reached [(Sample.now, Response 200 Sample.body)]))))
  = 2.
Proof.
  destruct (proj2 (run_table_takes_every_entry
                     [(Sample.now, Response 200 Sample.body)]
                     Sample.now Sample.tag42))
    as (_ & _ & ->).
  - vm_compute. reflexivity.
  - vm_compute. reflexivity.
Defined.

(** X5.  Every record of [parse_content] has a tag that is not empty and
    has no white space, and a message of word and white-space characters
    only that neither starts nor ends with white space. *)
Theorem records_are_tokens_and_trimmed now text :
  Forall (fun e =>
            tag_id e <> []
            /\ forallb Chr.is_nonspace (tag_id e) = true
            /\ forallb Chr.is_wordspace (message e) = true
            /\ starts_black (message e)
            /\ starts_black (rev (message e))
            /\ Py.strip (message e) = message e)
         (parse_content now text).
Proof.
  apply Forall_forall. intros e He.
  apply ExtractFacts.parse_content_in in He as (idx & sp & -> & Hwf).
  unfold well_formed in Hwf. rewrite !andb_true_iff in Hwf.
  destruct Hwf as [[[[[[_ Htag] Htags] _] _] _] Hmsgs]. cbn [entry_of tag_id message].
  repeat split.
  - destruct (tag sp); [discriminate Htag | discriminate].
  - exact Htags.
  - now apply forallb_strip.
  - apply strip_starts_black.
  - apply strip_ends_black.
  - apply strip_strip.
Qed.

(** X6.  The cache always holds a trimmed text: after any run from the
    start-up state, trimming [last_content] changes nothing. *)
Theorem cache_is_trimmed cycles db0 :
  Py.strip (last_content (fst (monitor_page cycles (initial db0))))
  = last_content (fst (monitor_page cycles (initial db0))).
Proof.
  assert (forall st, Py.strip (last_content st) = last_content st ->
                     Py.strip (last_content (fst (monitor_page cycles st)))
                     = last_content (fst (monitor_page cycles st))) as H.
  { induction cycles as [|[now r] cycles IH]; intros st Hst; [exact Hst|].
    rewrite monitor_page_cons. apply IH.
    destruct r as [|code text]; [exact Hst|].
    unfold monitor_cycle. destruct (code =? 200)%N; [|exact Hst].
    destruct (text_eq_dec _ _); [exact Hst|].
    destruct (save_content_to_db now (Py.strip text) (db st)).
    apply strip_strip. }
  apply H. reflexivity.
Qed.

(** X7.  The matches behind the records split the text from left to
    right without overlap: the text is what was skipped before each match
    and the match, in order, then a rest that contains no well-formed
    span.  Every match has at least 14 characters, so a text has at most
    a fourteenth of its length in records. *)
Theorem matches_split_the_text now text :
  (exists tail,
      text = rebuild (Re.finditer tag_pattern text) tail
      /\ ~ has_span tail)
  /\ 14 * length (parse_content now text) <= length text.
Proof.
  destruct (scan_partition tag_pattern I (S (length text)) text)
    as (tail & E & Ht); [lia|].
  split.
  - exists tail. split; [exact E|].
    rewrite LayoutFacts.has_span_search. intros H. now apply H.
  - rewrite ExtractFacts.parse_content_length.
    pose proof (matches_lengths text) as Hm.
    apply (f_equal (@length ascii)) in E.
    fold (Re.finditer tag_pattern text) in E.
    rewrite length_rebuild in E. lia.
Qed.

(** X8.  For a tag without NUL whose pattern is within SQLite's limit,
    the duplicate check accepts the tag whenever some row contains, before
    its first NUL, [TAG ID: ] followed by the tag, also when the tag is
    only the start of a longer one and whatever wildcard characters it
    has. *)
Theorem check_accepts_start_of_tag t u db r :
  Sql.cstr t = t ->
  short_tag t = true ->
  In r db ->
  Sub.contains (txt "TAG ID: " ++ t ++ u) (Sql.cstr (PageContent.content r))
  = true ->
  exists_by_tag t db = true.
Proof.
  intros Ht Hs Hin H. apply exists_by_tag_in with r; [exact Hs | exact Hin|].
  apply contains_like; [exact Ht|].
  apply DedupFacts.contains_split in H as (a & b & -> & H).
  apply prefix_split in H as (b' & ->).
  apply LayoutFacts.contains_app_r.
  apply LayoutFacts.contains_prefix.
  rewrite <- !app_assoc.
  assert (forall p s : list ascii, Sub.prefix p (p ++ s) = true) as Hp.
  { induction p as [|c p IH]; intros s; [reflexivity|].
    cbn [app Sub.prefix]. now rewrite Ascii.eqb_refl, IH. }
  rewrite (app_assoc (txt "TAG ID: ") t). apply Hp.
Qed.

(** The check for the tag 4 on a table whose row holds the tag 42. *)
Lemma check_accepts_start_of_tag_witness :
  exists_by_tag (txt "4") Legacy.table = true.
Proof.
  apply (check_accepts_start_of_tag (txt "4") (txt "2") Legacy.table
           Legacy.row).
  - reflexivity.
  - vm_compute. reflexivity.
  - left. reflexivity.
  - vm_compute. reflexivity.
Defined.

(** X9.  Once the duplicate check accepts a tag it accepts it after any
    further run of the monitor. *)
Theorem check_stays_true t cycles st :
  exists_by_tag t (db st) = true ->
  exists_by_tag t (db (fst (monitor_page cycles st))) = true.
Proof.
  intros H. destruct (monitor_grows cycles st) as (added & -> & _).
  now apply exists_by_tag_app.
Qed.

(** The check for the tag 42 after a cycle on a table that holds it. *)
Lemma check_stays_true_witness :
  exists_by_tag (txt "42")
    (db (fst (monitor_page [(Sample.now, Response 200 Sample.body)]
                           (initial Legacy.table))))
  = true.
Proof.
  apply (check_stays_true (txt "42")
           [(Sample.now, Response 200 Sample.body)] (initial Legacy.table)).
  vm_compute. reflexivity.
Defined.

(** X10.  When the duplicate check accepts the tag of every parsed
    entry, [save_content_to_db] leaves the table as it is and prints
    [already exists] for each entry, in order. *)
Theorem known_tags_are_skipped now content db :
  parse_content now content <> [] ->
  Forall (fun e => exists_by_tag (tag_id e) db = true)
         (parse_content now content) ->
  save_content_to_db now content db
  = (db, map (fun e => AlreadyExists (tag_id e)) (parse_content now content)).
Proof.
  intros Hne Hl. unfold save_content_to_db.
  destruct (parse_content now content) as [|e l]; [contradiction|].
  now rewrite (skip_loop _ _ Hl).
Qed.

(** A body with the tag 42 on a table whose row holds that tag. *)
Lemma known_tags_are_skipped_witness :
  save_content_to_db Sample.now Sample.tag42 Legacy.table
  = (Legacy.table, [AlreadyExists (txt "42")]).
Proof.
  rewrite (known_tags_are_skipped Sample.now Sample.tag42 Legacy.table).
  - vm_compute. reflexivity.
  - vm_compute. intros H. discriminate H.
  - vm_compute. repeat constructor.
Defined.

(** X11.  For every call of [save_content_to_db]: the table grows by the
    number of [saved] lines printed; the call prints one line for every
    parsed entry, or one line when there is none, unless it raised, and
    then what it put out is no longer than that; and the call prints
    [No valid entries] and keeps the table exactly when the content has
    no well-formed span. *)
Theorem printed_lines_account_for_rows now content db :
  length (fst (save_content_to_db now content db))
  = length db + count_saved (snd (save_content_to_db now content db))
  /\ length (snd (save_content_to_db now content db))
     <= Nat.max 1 (length (parse_content now content))
  /\ (length (snd (save_content_to_db now content db))
      = Nat.max 1 (length (parse_content now content))
      \/ raised (snd (save_content_to_db now content db)) = true)
  /\ (save_content_to_db now content db = (db, [NoValidEntries])
      <-> ~ has_span content).
Proof.
  rewrite <- LayoutFacts.parse_content_nil_iff with (now := now).
  unfold save_content_to_db.
  destruct (parse_content now content) as [|e l].
  - cbn [fst snd length]. unfold count_saved. simpl.
    split; [lia|]. split; [lia|]. split; [now left|]. split; reflexivity.
  - destruct (save_loop_account (e :: l) db) as (Hrows & Hle & Hlen & Hno).
    split; [exact Hrows|]. split; [simpl in *; lia|]. split; [|split].
    + destruct (raised (snd (save_entries (e :: l) db))) eqn:Hr;
        [now right | left].
      rewrite (Hlen eq_refl). simpl. lia.
    + intros H. exfalso. apply Hno. rewrite H. now left.
    + intros H. discriminate H.
Qed.

(** X12.  The change test remembers one body only.  When the page goes
    from a body to another and back, the first body is parsed and stored
    again: on the table of a run, three such cycles that print no error
    line add a row for every match of the first body twice and for every
    match of the second once. *)
Theorem alternating_bodies_are_stored_again cycles now1 now2 now3 a b :
  Py.strip a <> last_content (reached cycles) ->
  Py.strip a <> Py.strip b ->
  errored (snd (monitor_page [(now1, Response 200 a);
                              (now2, Response 200 b);
                              (now3, Response 200 a)]
                             (reached cycles))) = false ->
  length (db (fst (monitor_page [(now1, Response 200 a);
                                 (now2, Response 200 b);
                                 (now3, Response 200 a)]
                                (reached cycles))))
  = length (db (reached cycles)) + 2 * matches_in a + matches_in b.
Proof.
  intros Ha Hab He.
  rewrite !monitor_page_out, !errored_app in He.
  apply orb_false_iff in He as [E1 He].
  apply orb_false_iff in He as [E2 He].
  apply orb_false_iff in He as [E3 _].
  rewrite !monitor_page_cons. cbn [monitor_page fst].
  destruct (cycle_changed_rows now1 a (reached cycles)
              (reached_clean cycles) Ha E1) as (L1 & C1 & K1).
  set (st1 := fst (monitor_cycle now1 (Response 200 a) (reached cycles))) in *.
  assert (Py.strip b <> last_content st1) as Hb
      by (rewrite C1; intros E; now apply Hab).
  destruct (cycle_changed_rows now2 b st1 K1 Hb E2) as (L2 & C2 & K2).
  set (st2 := fst (monitor_cycle now2 (Response 200 b) st1)) in *.
  assert (Py.strip a <> last_content st2) as Ha2 by (now rewrite C2).
  destruct (cycle_changed_rows now3 a st2 K2 Ha2 E3) as (L3 & _ & _).
  lia.
Qed.

(** The bodies with the tag 1 and with the tag 42, from the start. *)
Lemma alternating_bodies_are_stored_again_witness :
  length (db (fst (monitor_page [(Sample.now, Response 200 Sample.body);
                                 (Sample.now, Response 200 Sample.tag42);
                                 (Sample.now, Response 200 Sample.body)]
                                (reached []))))
  = 3.
Proof.
  rewrite (alternating_bodies_are_stored_again
             [] Sample.now Sample.now Sample.now Sample.body Sample.tag42).
  - vm_compute. reflexivity.
  - vm_compute. intros H. discriminate H.
  - vm_compute. intros H. discriminate H.
  - vm_compute. reflexivity.
Defined.

(** X13.  A body of white space only, the empty body included, fetched
    in the start-up state counts as unchanged: the cycle prints nothing,
    not even [No valid entries], and keeps the state. *)
Theorem blank_body_at_start_is_skipped now text db0 :
  forallb Chr.is_space text = true ->
  monitor_cycle now (Response 200 text) (initial db0) = (initial db0, []).
Proof.
  intros H. apply MonitorFacts.cycle_same.
  now rewrite (strip_spaces _ H).
Qed.

(** A body of two spaces and a line feed. *)
Lemma blank_body_at_start_is_skipped_witness :
  monitor_cycle Sample.now
                (Response 200 (txt "  " ++ [Chr.newline])) (initial [])
  = (initial [], []).
Proof.
  apply (blank_body_at_start_is_skipped Sample.now
           (txt "  " ++ [Chr.newline]) []).
  vm_compute. reflexivity.
Defined.

(** X14.  After any run of the monitor from the empty table,
    [get_saved_content] either raises with status 404, when the run
    stored nothing, or returns one element for every row, in the order of
    insertion, numbered 1, 2, ... and with the content of the row. *)
Theorem read_after_run cycles :
  match get_saved_content (db (reached cycles)) with
  | inl ex => db (reached cycles) = [] /\ status_code ex = 404%N
  | inr items =>
      db (reached cycles) <> []
      /\ map item_id items = first_ids (length (db (reached cycles)))
      /\ map item_content items
         = map PageContent.content (db (reached cycles))
  end.
Proof.
  pose proof (reached_ids cycles) as H.
  destruct (db (reached cycles)) as [|r d] eqn:E; cbn [get_saved_content].
  - split; reflexivity.
  - split; [discriminate|]. rewrite !map_map. cbn [item_id item_content].
    split; [exact H | reflexivity].
Qed.

(** X15.  Every match behind a record is the leftmost one from where the
    scan stood: the pattern matches at no position of the text skipped
    before it. *)
Theorem records_come_from_leftmost_matches text :
  Forall (fun m =>
            forall a b,
              Re.skipped m = a ++ b -> b <> [] ->
              Re.exec tag_pattern (b ++ Re.matched m ++ Re.after m) = None)
         (Re.finditer tag_pattern text).
Proof.
  apply Forall_forall. intros m Hin. now apply (scan_leftmost _ _ _ _ Hin).
Qed.

(** X16.  The duplicate check does not tell the case of ASCII letters:
    it gives the same answer for a tag and for the tag in lower case, on
    every table. *)
Theorem check_ignores_case t db :
  exists_by_tag (map Chr.lower t) db = exists_by_tag t db.
Proof.
  unfold exists_by_tag, query_like_first.
  rewrite too_complex_lower.
  destruct db as [|r0 db]; [reflexivity|].
  destruct (Sql.too_complex (tag_like t)); [reflexivity|].
  generalize (r0 :: db) as d. intros d.
  induction d as [|r d IH]; [reflexivity|].
  cbn [find]. rewrite like_lower_tag.
  destruct (Sql.like (tag_like t) (PageContent.content r));
    [reflexivity | exact IH].
Qed.
